(** * ReadyCheck utility scripts: a shallow embedding and its properties

  Two scripts of [utils/] are embedded here:

  - [filter_lcov_exclusions.py] (module [FilterLcov]): a text filter over
    LCOV coverage records, driven by exclusion markers found in the source
    files the records name;
  - [run_with_timeout.py] (module [RunWithTimeout]): a process supervisor
    that drains the two output pipes of a child through a selector, mirrors
    them, and enforces a wall-clock deadline.

  Python [str] values are [string]s (one [ascii] per character, so the text
  is taken to be ASCII), Python [set]s of line numbers are [gset N], the
  files a script can open are a [gmap] from paths to nodes, and an
  exception that leaves a function is the left injection of a sum. *)

From Stdlib Require Import ZArith NArith QArith Strings.String Strings.Ascii.
From Stdlib Require Import DecimalString DecimalNat Lists.List.
From stdpp Require Import gmap strings list.
Import ListNotations.

(** ** Text helpers: the [str] methods both scripts call *)

Module Text.

(** [s.startswith(p)] *)
Definition startswith (s p : string) : bool := String.prefix p s.

(** [pat in s] *)
Fixpoint contains (pat s : string) : bool :=
  String.prefix pat s ||
  match s with
  | EmptyString => false
  | String _ rest => contains pat rest
  end.

(** [s[n:]] *)
Fixpoint drop_chars (n : nat) (s : string) : string :=
  match n, s with
  | O, _ => s
  | S _, EmptyString => EmptyString
  | S n', String _ rest => drop_chars n' rest
  end.

(** [c.isspace()] on the ASCII range: tab, line feed, vertical tab, form
    feed, carriage return, the four separators 28..31 and the space. *)
Definition isspace (c : ascii) : bool :=
  let n := nat_of_ascii c in
  ((9 <=? n) && (n <=? 13)) || ((28 <=? n) && (n <=? 32)).

Fixpoint lstrip (s : string) : string :=
  match s with
  | EmptyString => EmptyString
  | String c rest => if isspace c then lstrip rest else s
  end.

Fixpoint rstrip (s : string) : string :=
  match s with
  | EmptyString => EmptyString
  | String c rest =>
      match rstrip rest with
      | EmptyString => if isspace c then EmptyString else String c EmptyString
      | kept => String c kept
      end
  end.

(** [s.strip()] *)
Definition strip (s : string) : string := rstrip (lstrip s).

(** [\d] on the ASCII range *)
Definition isdigit (c : ascii) : bool :=
  let n := nat_of_ascii c in (48 <=? n) && (n <=? 57).

(** The longest run of digits at the head of [s], and what follows it:
    what a greedy [\d*] consumes. *)
Fixpoint span_digits (s : string) : string * string :=
  match s with
  | EmptyString => (EmptyString, EmptyString)
  | String c rest =>
      if isdigit c
      then let '(ds, tl) := span_digits rest in (String c ds, tl)
      else (EmptyString, s)
  end.

(** [int(ds)] for a run of ASCII digits *)
Fixpoint int_of_digits_from (acc : N) (ds : string) : N :=
  match ds with
  | EmptyString => acc
  | String c rest =>
      int_of_digits_from (acc * 10 + (N_of_ascii c - 48))%N rest
  end.
Definition int_of_digits (ds : string) : N := int_of_digits_from 0%N ds.

(** [''.join(chunks)] *)
Definition join (chunks : list string) : string := String.concat "" chunks.

(** [enumerate(xs, start)] *)
Fixpoint enumerate {A} (start : N) (xs : list A) : list (N * A) :=
  match xs with
  | [] => []
  | x :: rest => (start, x) :: enumerate (N.succ start) rest
  end.

(** [p] is a prefix of [s]. *)
Definition is_prefix (p s : string) : Prop := ∃ rest, s = p +:+ rest.

End Text.

(** ** [utils/filter_lcov_exclusions.py] *)

Module FilterLcov.
Import Text.

(** The exceptions [open] raises in this script. *)
Inductive exn := FileNotFoundError | PermissionError | IsADirectoryError.

Global Instance exn_eq_dec : EqDecision exn.
Proof. solve_decision. Defined.

(** What a path names: a readable text file, given by its lines (each with
    its line terminator, as iterating over the file or [readlines] yields
    them), or an entry whose [open] raises [e] (a directory, a file without
    permission, a dangling link).  A path bound to nothing does not exist. *)
Inductive node :=
| File (lines : list string)
| Locked (e : exn).

Definition open_read (fs : gmap string node) (path : string)
  : exn + list string :=
  match fs !! path with
  | None => inl FileNotFoundError
  | Some (Locked e) => inl e
  | Some (File lines) => inr lines
  end.

(** [with open(path, 'w') as f: f.writelines(lines)] *)
Definition open_write (fs : gmap string node) (path : string)
    (lines : list string) : exn + gmap string node :=
  match fs !! path with
  | Some (Locked e) => inl e
  | _ => inr (<[path := File lines]> fs)
  end.

(** The body of the loop of [find_excluded_lines]: the pair is
    [(excluded, in_excl_block)]. *)
Definition scan_line (acc : gset N * bool) (numbered : N * string)
  : gset N * bool :=
  let '(excluded, in_excl_block) := acc in
  let '(line_num, line) := numbered in
  let excluded :=
    if contains "LCOV_EXCL_LINE" line then {[line_num]} ∪ excluded
    else excluded in
  if contains "LCOV_EXCL_START" line then ({[line_num]} ∪ excluded, true)
  else if contains "LCOV_EXCL_STOP" line then ({[line_num]} ∪ excluded, false)
  else if in_excl_block then ({[line_num]} ∪ excluded, in_excl_block)
  else (excluded, in_excl_block).

Definition scan_lines (start : N) (lines : list string) (acc : gset N * bool)
  : gset N * bool :=
  fold_left scan_line (enumerate start lines) acc.

(** [find_excluded_lines]: only [FileNotFoundError] is caught. *)
Definition find_excluded_lines (fs : gmap string node) (source_file : string)
  : exn + gset N :=
  match open_read fs source_file with
  | inr lines => inr (fst (scan_lines 1 lines (∅, false)))
  | inl FileNotFoundError => inr ∅
  | inl e => inl e
  end.

(** [re.match(tag + r'(\d+),', line)] followed by [int(match.group(1))]:
    the tag, a non-empty run of digits, a comma. *)
Definition re_match_record (tag line : string) : option N :=
  if startswith line tag then
    match span_digits (drop_chars (String.length tag) line) with
    | (String d ds, String "," _) => Some (int_of_digits (String d ds))
    | _ => None
    end
  else None.

Record filter_state := {
  current_file : option string;
  excluded_lines : gset N;
  filtered_lines : list string
}.

Definition keep (line : string) (st : filter_state) : filter_state :=
  {| current_file := current_file st;
     excluded_lines := excluded_lines st;
     filtered_lines := filtered_lines st ++ [line] |}.

(** The [DA:] and [BRDA:] branches share their shape. *)
Definition filter_record (tag line : string) (st : filter_state)
  : filter_state :=
  match re_match_record tag line with
  | Some line_num =>
      if decide (line_num ∈ excluded_lines st) then st else keep line st
  | None => keep line st
  end.

(** The body of the loop of [filter_lcov]. *)
Definition filter_line (fs : gmap string node) (st : filter_state)
    (line : string) : exn + filter_state :=
  if startswith line "SF:" then
    let path := strip (drop_chars 3 line) in
    match find_excluded_lines fs path with
    | inl e => inl e
    | inr excluded =>
        inr {| current_file := Some path;
               excluded_lines := excluded;
               filtered_lines := filtered_lines st ++ [line] |}
    end
  else if startswith line "DA:" then inr (filter_record "DA:" line st)
  else if startswith line "BRDA:" then inr (filter_record "BRDA:" line st)
  else inr (keep line st).

(** The [for] loop: an exception ends it. *)
Fixpoint filter_lines (fs : gmap string node) (lines : list string)
    (st : filter_state) : exn + filter_state :=
  match lines with
  | [] => inr st
  | line :: rest =>
      match filter_line fs st line with
      | inl e => inl e
      | inr st' => filter_lines fs rest st'
      end
  end.

Definition initial : filter_state :=
  {| current_file := None; excluded_lines := ∅; filtered_lines := [] |}.

(** [filter_lcov(input_path, output_path)]: the file system afterwards, or
    the exception that left the function. *)
Definition filter_lcov (fs : gmap string node) (input_path output_path : string)
  : exn + gmap string node :=
  match open_read fs input_path with
  | inl e => inl e
  | inr lines =>
      match filter_lines fs lines initial with
      | inl e => inl e
      | inr st => open_write fs output_path (filtered_lines st)
      end
  end.

(** *** What the records and markers mean

    The definitions below do not come from the loops above: they say, line
    by line, which records the filter is meant to drop. *)

Definition has_line_marker (line : string) : Prop :=
  contains "LCOV_EXCL_LINE" line = true.
Definition has_start_marker (line : string) : Prop :=
  contains "LCOV_EXCL_START" line = true.
Definition has_stop_marker (line : string) : Prop :=
  contains "LCOV_EXCL_STOP" line = true.

(** Line [n] (counted from 1) of [src] is [line]. *)
Definition line_at (src : list string) (n : N) (line : string) : Prop :=
  ∃ i : nat, n = N.of_nat (S i) ∧ src !! i = Some line.

(** The exclusion set in the words of the specification: the lines bearing
    a single-line marker, and the lines from a start marker through the
    matching stop marker (the first one at or after it), both included. *)
Definition bracketed (src : list string) (n : N) : Prop :=
  ∃ (s e : N) (ls le : string),
    line_at src s ls ∧ has_start_marker ls ∧
    line_at src e le ∧ has_stop_marker le ∧
    (s ≤ n)%N ∧ (n ≤ e)%N ∧
    (∀ k lk, (s ≤ k)%N → (k < e)%N → line_at src k lk → ¬ has_stop_marker lk).

Definition spec_excluded (src : list string) (n : N) : Prop :=
  (∃ line, line_at src n line ∧ has_line_marker line) ∨ bracketed src n.

(** The exclusion set the scan builds, line by line: a line is in it when
    it bears any of the three markers, or when a start marker above it has
    not been closed, a line closing a region when it bears a stop marker
    and no start marker. *)
Definition open_region (src : list string) (n : N) : Prop :=
  ∃ (s : N) (ls : string),
    (s < n)%N ∧ line_at src s ls ∧ has_start_marker ls ∧
    (∀ k lk, (s < k)%N → (k < n)%N → line_at src k lk →
             has_stop_marker lk → has_start_marker lk).

Definition marked (src : list string) (n : N) : Prop :=
  ∃ line, line_at src n line ∧
    (has_line_marker line ∨ has_start_marker line ∨ has_stop_marker line ∨
     open_region src n).


Definition sf_path (sf_line : string) : string := strip (drop_chars 3 sf_line).

(** The line number of a coverage record, for the two kinds of record the
    filter looks at. *)
Definition record_line_number (line : string) : option N :=
  match re_match_record "DA:" line with
  | Some n => Some n
  | None => re_match_record "BRDA:" line
  end.




(** *** Invariants of the two loops *)

(** The flag after a prefix: some start marker in it is not yet closed. *)
Definition unclosed (pre : list string) : Prop :=
  ∃ (s : nat) (ls : string),
    pre !! s = Some ls ∧ has_start_marker ls ∧
    ∀ k lk, s < k → pre !! k = Some lk →
            has_stop_marker lk → has_start_marker lk.


(** *** Sample inputs *)

Definition LF : string := String "010"%char EmptyString.

(** A source file with a bracketed region (lines 2 to 4) and a single-line
    marker (line 5), and a coverage file over it. *)
Definition sample_source : list string :=
  [ "int f() {" +:+ LF;
    "  // LCOV_EXCL_START" +:+ LF;
    "  abort();" +:+ LF;
    "  // LCOV_EXCL_STOP" +:+ LF;
    "  g(); // LCOV_EXCL_LINE" +:+ LF;
    "}" +:+ LF ].

Definition sample_coverage : list string :=
  [ "TN:" +:+ LF; "SF:a.c" +:+ LF; "DA:1,1" +:+ LF; "DA:3,4" +:+ LF;
    "BRDA:5,0,0,-" +:+ LF; "DA:6,1" +:+ LF; "end_of_record" +:+ LF;
    "SF:gone.c" +:+ LF; "DA:3,7" +:+ LF; "end_of_record" +:+ LF ].

Definition sample_fs : gmap string node :=
  <["a.c" := File sample_source]> (<["merged.lcov" := File sample_coverage]> ∅).



(** *** The command line of the script *)

(** The block under [if __name__ == '__main__']: [argv] is [sys.argv], the
    result is the exit status, what [print] has written, and the files
    afterwards.  An exception that reaches the top level ends the script
    with status 1; the output file is opened only once the whole input has
    been filtered. *)
Definition script (argv : list string) (fs : gmap string node)
  : Z * list string * gmap string node :=
  match argv with
  | [_; input_file; output_file] =>
      match filter_lcov fs input_file output_file with
      | inr fs' =>
          (0%Z,
           ["Filtered " +:+ input_file +:+ " -> " +:+ output_file
              +:+ String "010"%char EmptyString],
           fs')
      | inl _ => (1%Z, [], fs)
      end
  | _ =>
      (1%Z,
       ["Usage: filter_lcov_exclusions.py <input.lcov> <output.lcov>"
          +:+ String "010"%char EmptyString],
       fs)
  end.

(** *** Shapes of source files and of records *)


(** The markers of [src] are used as brackets: no line bears both a start
    and a stop marker, every stop marker closes a region that is open, and
    every start marker has a stop marker at or below it. *)
Definition well_bracketed (src : list string) : Prop :=
  (∀ line, line ∈ src → ¬ (has_start_marker line ∧ has_stop_marker line)) ∧
  (∀ n line, line_at src n line → has_stop_marker line → open_region src n) ∧
  (∀ n line, line_at src n line → has_start_marker line →
     ∃ e le, (n ≤ e)%N ∧ line_at src e le ∧ has_stop_marker le).




End FilterLcov.

(** ** [utils/run_with_timeout.py]

  The supervisor talks to its environment through library calls only:
  [Popen], [time.time], [select], [readline], [write]/[flush], [poll] and
  [kill].  A [world] fixes what each call answers, pass by pass of the
  drain loop; every call is taken to come back, with a value or with an
  exception.  The loop is run with fuel: [Runs] is the outcome of a loop
  that is still going when the fuel is spent. *)

Module RunWithTimeout.
Import Text.

Definition CR : ascii := "013"%char.
Definition LF : ascii := "010"%char.

(** The two pipes of the child, [proc.stdout] and [proc.stderr]. *)
Inductive channel := Stdout | Stderr.

Global Instance channel_eq_dec : EqDecision channel.
Proof. solve_decision. Defined.

Inductive exn := TimeoutError | OSError | UnicodeDecodeError.

Global Instance exn_eq_dec : EqDecision exn.
Proof. solve_decision. Defined.

Record process := { pid : nat; pgid : nat; alive : bool }.

Record world := {
  (** [Popen] raising: no child is created *)
  spawn_error : option exn;
  child_pid : nat;
  (** the characters the child writes on each stream, all of them *)
  raw_output : channel → string;
  (** [time.time() - start] at the check that opens pass [k] *)
  clock : nat → Q;
  (** the descriptors the system reports readable to the [select] of pass [k] *)
  ready : nat → list channel;
  (** [readline] raising in pass [k] *)
  read_error : nat → channel → option exn;
  (** [out.write(chunk); out.flush()] going through in pass [k] *)
  sink_ok : nat → channel → bool;
  (** [proc.poll()] at the end of pass [k] *)
  poll : nat → option Z;
  (** [proc.kill()] going through *)
  kill_ok : bool;
  (** the child and the processes it has forked, when the loop is left *)
  processes : list process
}.

(** The pipes are opened with [text=True, universal_newlines=True]: the
    text layer hands over each [\r\n] and each lone [\r] as [\n]. *)
Fixpoint universal_newlines (s : string) : string :=
  match s with
  | EmptyString => EmptyString
  | String c rest =>
      if Ascii.eqb c CR then
        match rest with
        | String c' _ =>
            if Ascii.eqb c' LF then universal_newlines rest
            else String LF (universal_newlines rest)
        | EmptyString => String LF EmptyString
        end
      else String c (universal_newlines rest)
  end.

(** [readline] on the text still to come: the characters up to the first
    line feed, that one included, or all of them when there is none; the
    empty string at end of stream only. *)
Fixpoint readline (s : string) : string * string :=
  match s with
  | EmptyString => (EmptyString, EmptyString)
  | String c rest =>
      if Ascii.eqb c LF then (String c EmptyString, rest)
      else let '(line, tl) := readline rest in (String c line, tl)
  end.

Definition upd {A} (c : channel) (v : A) (f : channel → A) : channel → A :=
  λ c', if decide (c' = c) then v else f c'.

Record state := {
  (** the file objects registered with the selector *)
  registered : list channel;
  (** the text each pipe has yet to hand over *)
  pending : channel → string;
  (** [stdout_buf] and [stderr_buf] *)
  buf : channel → list string;
  (** what has reached [sys.stdout] and [sys.stderr] *)
  sink : channel → list string;
  exit_code : option Z
}.

Definition initial (w : world) : state :=
  {| registered := [Stdout; Stderr];
     pending := λ c, universal_newlines (raw_output w c);
     buf := λ _, [];
     sink := λ _, [];
     exit_code := None |}.

(** [sel.select(timeout=0.1)]: the registered descriptors among the
    readable ones, each once. *)
Definition select (w : world) (k : nat) (st : state) : list channel :=
  filter (λ c, c ∈ registered st) (remove_dups (ready w k)).

Inductive step := Next (st : state) | Throw (e : exn) (st : state).

(** The body of [for key, _ in events]. *)
Definition on_event (w : world) (k : nat) (c : channel) (st : state) : step :=
  match read_error w k c with
  | Some e => Throw e st
  | None =>
      let '(chunk, rest) := readline (pending st c) in
      match chunk with
      | String _ _ =>
          Next {| registered := registered st;
                  pending := upd c rest (pending st);
                  buf := upd c (buf st c ++ [chunk]) (buf st);
                  sink := if sink_ok w k c
                          then upd c (sink st c ++ [chunk]) (sink st)
                          else sink st;
                  exit_code := exit_code st |}
      | EmptyString =>
          Next {| registered := filter (λ c', c' ≠ c) (registered st);
                  pending := pending st;
                  buf := buf st;
                  sink := sink st;
                  exit_code := exit_code st |}
      end
  end.

Fixpoint drain (w : world) (k : nat) (events : list channel) (st : state)
  : step :=
  match events with
  | [] => Next st
  | c :: rest =>
      match on_event w k c st with
      | Next st' => drain w k rest st'
      | Throw e st' => Throw e st'
      end
  end.

(** [timeout_sec is not None and (time.time() - start) > timeout_sec] *)
Definition deadline_passed (timeout_sec : option Q) (elapsed : Q) : bool :=
  match timeout_sec with
  | None => false
  | Some t => negb (Qle_bool elapsed t)
  end.

Inductive pass_end :=
| Continue (st : state)
| Break (st : state)
| Raise (e : exn) (st : state).

Definition set_exit_code (code : option Z) (st : state) : state :=
  {| registered := registered st; pending := pending st; buf := buf st;
     sink := sink st; exit_code := code |}.

(** One pass of [while True]. *)
Definition pass (w : world) (timeout_sec : option Q) (k : nat) (st : state)
  : pass_end :=
  if deadline_passed timeout_sec (clock w k) then Raise TimeoutError st
  else
    let events := select w k st in
    match drain w k events st with
    | Throw e st' => Raise e st'
    | Next st' =>
        let st'' := set_exit_code (poll w k) st' in
        match exit_code st'', events with
        | Some _, [] => Break st''
        | _, _ => Continue st''
        end
    end.

(** How the loop is left, and in which pass. *)
Inductive loop_end :=
| Exited (k : nat) (st : state)
| Raised (k : nat) (e : exn) (st : state)
| Unfinished (st : state).

Fixpoint loop (w : world) (timeout_sec : option Q) (fuel k : nat)
    (st : state) : loop_end :=
  match fuel with
  | O => Unfinished st
  | S fuel' =>
      match pass w timeout_sec k st with
      | Continue st' => loop w timeout_sec fuel' (S k) st'
      | Break st' => Exited k st'
      | Raise e st' => Raised k e st'
      end
  end.

(** What the caller of [stream_process] gets. *)
Inductive outcome :=
| Returns (code : option Z) (out err : string)
| Raises (e : exn)
| Runs.

(** What the run leaves behind outside the interpreter. *)
Record system := {
  spawned : list (list string);
  stdout_sink : list string;
  stderr_sink : list string;
  procs : list process
}.

(** [proc.kill()]: the signal goes to the child, and to the child only. *)
Definition kill (target : nat) (table : list process) : list process :=
  map (λ p, if Nat.eqb (pid p) target
            then {| pid := pid p; pgid := pgid p; alive := false |}
            else p) table.

Definition leave (w : world) (cmd : list string) (st : state)
    (table : list process) : system :=
  {| spawned := [cmd];
     stdout_sink := sink st Stdout;
     stderr_sink := sink st Stderr;
     procs := table |}.

Definition stream_process (w : world) (cmd : list string)
    (timeout_sec : option Q) (fuel : nat) : outcome * system :=
  match spawn_error w with
  | Some e =>
      (Raises e, {| spawned := []; stdout_sink := []; stderr_sink := [];
                    procs := [] |})
  | None =>
      match loop w timeout_sec fuel 0 (initial w) with
      | Exited _ st =>
          (Returns (exit_code st) (join (buf st Stdout)) (join (buf st Stderr)),
           leave w cmd st (processes w))
      | Raised _ TimeoutError st =>
          (Returns (Some 124%Z) (join (buf st Stdout)) (join (buf st Stderr)),
           leave w cmd st
             (if kill_ok w then kill (child_pid w) (processes w)
              else processes w))
      | Raised _ e st => (Raises e, leave w cmd st (processes w))
      | Unfinished st => (Runs, leave w cmd st (processes w))
      end
  end.

(** The parsed command line: [timeout] is an [int], [cmd] the remainder. *)
Record args := { timeout : Z; cmd : list string }.

(** How the script ends: [sys.exit(main())], a traceback, or not at all. *)
Inductive exit := Exit (code : Z) | Crash (e : exn) | NoExit.

(** [print(text, file=sys.stderr)] *)
Definition print_err (text : string) (sys : system) : system :=
  {| spawned := spawned sys;
     stdout_sink := stdout_sink sys;
     stderr_sink := stderr_sink sys ++ [text +:+ String LF EmptyString];
     procs := procs sys |}.

(** [str(len(text))] *)
Definition str_len (text : string) : string :=
  NilZero.string_of_uint (Nat.to_uint (String.length text)).

Definition timeout_report (cmd : list string) (out err : string)
  : list string :=
  [ String LF "--- TIMEOUT ---";
    "Command: " +:+ String.concat " " cmd;
    "Collected stdout bytes: " +:+ str_len out;
    "Collected stderr bytes: " +:+ str_len err ].

Definition main (w : world) (a : args) (fuel : nat) : exit * system :=
  match cmd a with
  | [] =>
      (Exit 2,
       print_err "No command provided"
         {| spawned := []; stdout_sink := []; stderr_sink := []; procs := [] |})
  | _ :: _ =>
      match stream_process w (cmd a) (Some (inject_Z (timeout a))) fuel with
      | (Returns code out err, sys) =>
          let sys' :=
            if decide (code = Some 124%Z)
            then fold_left (λ s line, print_err line s)
                           (timeout_report (cmd a) out err) sys
            else sys in
          (Exit (if decide (code = Some 0%Z) then 0
                 else match code with Some c => c | None => 1 end),
           sys')
      | (Raises e, sys) => (Crash e, sys)
      | (Runs, sys) => (NoExit, sys)
      end
  end.

(** *** Invariants of the drain loop *)

(** What is captured on a channel, followed by what the pipe has yet to
    hand over, is the translated output of the child; a channel the
    selector no longer watches has nothing left. *)
Definition consistent (w : world) (st : state) : Prop :=
  ∀ c, join (buf st c) +:+ pending st c = universal_newlines (raw_output w c)
       ∧ (c ∉ registered st → pending st c = EmptyString).

Definition state_of (r : loop_end) : state :=
  match r with
  | Exited _ st | Raised _ _ st | Unfinished st => st
  end.

(** Two states that differ at most in what has reached the sinks. *)
Definition same_capture (st st' : state) : Prop :=
  registered st = registered st' ∧
  (∀ c, pending st c = pending st' c) ∧
  (∀ c, buf st c = buf st' c) ∧
  exit_code st = exit_code st'.

(** *** Sample worlds *)

Definition line (text : string) : string := text +:+ String LF EmptyString.
Definition crlf (text : string) : string :=
  text +:+ String CR (String LF EmptyString).

(** A child that writes nothing and is still running, one pass every tenth
    of a second, both pipes reported readable. *)
Definition idle : world :=
  {| spawn_error := None;
     child_pid := 100;
     raw_output := λ _, EmptyString;
     clock := λ k, (Z.of_nat k # 10)%Q;
     ready := λ _, [Stdout; Stderr];
     read_error := λ _ _, None;
     sink_ok := λ _ _, true;
     poll := λ _, None;
     kill_ok := true;
     processes := [ {| pid := 100; pgid := 7; alive := true |} ] |}.

Definition with_output (out err : string) (w : world) : world :=
  {| spawn_error := spawn_error w; child_pid := child_pid w;
     raw_output := λ c, match c with Stdout => out | Stderr => err end;
     clock := clock w; ready := ready w; read_error := read_error w;
     sink_ok := sink_ok w; poll := poll w; kill_ok := kill_ok w;
     processes := processes w |}.

Definition with_poll (p : nat → option Z) (w : world) : world :=
  {| spawn_error := spawn_error w; child_pid := child_pid w;
     raw_output := raw_output w; clock := clock w; ready := ready w;
     read_error := read_error w; sink_ok := sink_ok w; poll := p;
     kill_ok := kill_ok w; processes := processes w |}.

Definition with_clock (t : nat → Q) (w : world) : world :=
  {| spawn_error := spawn_error w; child_pid := child_pid w;
     raw_output := raw_output w; clock := t; ready := ready w;
     read_error := read_error w; sink_ok := sink_ok w; poll := poll w;
     kill_ok := kill_ok w; processes := processes w |}.

Definition with_read_error (r : nat → channel → option exn) (w : world)
  : world :=
  {| spawn_error := spawn_error w; child_pid := child_pid w;
     raw_output := raw_output w; clock := clock w; ready := ready w;
     read_error := r; sink_ok := sink_ok w; poll := poll w;
     kill_ok := kill_ok w; processes := processes w |}.

Definition with_sinks (ok : nat → channel → bool) (w : world) : world :=
  {| spawn_error := spawn_error w; child_pid := child_pid w;
     raw_output := raw_output w; clock := clock w; ready := ready w;
     read_error := read_error w; sink_ok := ok; poll := poll w;
     kill_ok := kill_ok w; processes := processes w |}.

Definition with_processes (table : list process) (w : world) : world :=
  {| spawn_error := spawn_error w; child_pid := child_pid w;
     raw_output := raw_output w; clock := clock w; ready := ready w;
     read_error := read_error w; sink_ok := sink_ok w; poll := poll w;
     kill_ok := kill_ok w; processes := table |}.

(** [echo hello]: one line on the standard output, exit code 0. *)
Definition echo_hello : world :=
  with_poll (λ _, Some 0%Z) (with_output (line "hello") EmptyString idle).

(** The same with the line ended the DOS way. *)
Definition echo_hello_crlf : world :=
  with_poll (λ _, Some 0%Z) (with_output (crlf "hello") EmptyString idle).

(** Two lines, the first ended the DOS way, from a child that goes on
    running. *)
Definition two_lines : world :=
  with_output (crlf "a" +:+ line "b") EmptyString idle.

(** A child whose standard output cannot be decoded, with a warning waiting
    on its standard error. *)
Definition garbled : world :=
  with_read_error
    (λ k c, match k, c with O, Stdout => Some UnicodeDecodeError | _, _ => None end)
    (with_output EmptyString (line "warning") idle).

(** A child that has forked a helper and sleeps. *)
Definition forked : world :=
  with_processes [ {| pid := 100; pgid := 7; alive := true |};
                   {| pid := 101; pgid := 7; alive := true |} ]
    (with_clock (λ k, (Z.of_nat (S k) # 10)%Q) idle).

(** *** Shapes of text *)

(** [c in s] for one character *)
Fixpoint occurs (c : ascii) (s : string) : bool :=
  match s with
  | EmptyString => false
  | String a rest => Ascii.eqb a c || occurs c rest
  end.

(** One line: at least one character, and no line feed before the last. *)
Fixpoint one_line (s : string) : bool :=
  match s with
  | EmptyString => false
  | String c EmptyString => true
  | String c rest => negb (Ascii.eqb c LF) && one_line rest
  end.

(** No [readline] raises a [TimeoutError] of its own. *)
Definition reads_never_time_out (w : world) : Prop :=
  ∀ k c, read_error w k c ≠ Some TimeoutError.

End RunWithTimeout.

Module FilterLcovFacts.
Import Text FilterLcov.

Lemma enumerate_app {A} (xs ys : list A) start :
  enumerate start (xs ++ ys)
  = enumerate start xs ++ enumerate (start + N.of_nat (length xs)) ys.
Proof.
  revert start; induction xs as [|x xs IH]; intros start; simpl.
  - by rewrite N.add_0_r.
  - rewrite IH. do 3 f_equal. lia.
Qed.

Lemma scan_lines_snoc start lines line acc :
  scan_lines start (lines ++ [line]) acc
  = scan_line (scan_lines start lines acc)
              ((start + N.of_nat (length lines))%N, line).
Proof. unfold scan_lines. by rewrite enumerate_app, fold_left_app. Qed.

(** One step of the scan, read as a set and a flag. *)
Lemma scan_line_elem E b num line n :
  n ∈ fst (scan_line (E, b) (num, line)) ↔
  n ∈ E ∨ (n = num ∧ (has_line_marker line ∨ has_start_marker line ∨
                       has_stop_marker line ∨ b = true)).
Proof.
  unfold scan_line, has_line_marker, has_start_marker, has_stop_marker.
  destruct (contains "LCOV_EXCL_LINE" line),
           (contains "LCOV_EXCL_START" line),
           (contains "LCOV_EXCL_STOP" line), b; simpl;
    rewrite ?elem_of_union, ?elem_of_singleton; intuition congruence.
Qed.

Lemma scan_line_flag E b num line :
  snd (scan_line (E, b) (num, line))
  = if contains "LCOV_EXCL_START" line then true
    else if contains "LCOV_EXCL_STOP" line then false else b.
Proof.
  unfold scan_line.
  by destruct (contains "LCOV_EXCL_START" line),
              (contains "LCOV_EXCL_STOP" line), b.
Qed.

Lemma scan_flag_unclosed start pre E :
  snd (scan_lines start pre (E, false)) = true ↔ unclosed pre.
Proof.
  induction pre as [|line pre IH] using rev_ind.
  - simpl. split; [done|]. by intros (s & ls & Hs & _).
  - rewrite scan_lines_snoc.
    destruct (scan_lines start pre (E, false)) as [E' b] eqn:Hscan.
    rewrite scan_line_flag. simpl in IH.
    destruct (contains "LCOV_EXCL_START" line) eqn:Hst.
    + split; [intros _|done].
      exists (length pre), line. rewrite list_lookup_middle by done.
      split_and!; [done..|].
      intros k lk Hk Hlk. apply lookup_lt_Some in Hlk.
      rewrite length_app in Hlk. simpl in Hlk. lia.
    + assert (Hlast : (pre ++ [line]) !! length pre = Some line)
        by (by rewrite list_lookup_middle).
      destruct (contains "LCOV_EXCL_STOP" line) eqn:Hsp.
      * split; [done|]. intros (s & ls & Hs & Hstart & Hclosed).
        destruct (decide (s = length pre)) as [->|Hne].
        { rewrite Hlast in Hs. injection Hs as <-.
          unfold has_start_marker in Hstart. congruence. }
        assert (s < length pre).
        { apply lookup_lt_Some in Hs. rewrite length_app in Hs.
          simpl in Hs. lia. }
        specialize (Hclosed (length pre) line ltac:(lia) Hlast Hsp).
        unfold has_start_marker in Hclosed. congruence.
      * rewrite IH. split.
        -- intros (s & ls & Hs & Hstart & Hclosed).
           exists s, ls. split_and!; [|done|].
           { by apply lookup_app_l_Some. }
           intros k lk Hk Hlk Hstop.
           destruct (decide (k = length pre)) as [->|Hne].
           { rewrite Hlast in Hlk. injection Hlk as <-.
             unfold has_stop_marker in Hstop. congruence. }
           apply (Hclosed k lk); [done| |done].
           apply lookup_lt_Some in Hlk as Hlt.
           rewrite length_app in Hlt. simpl in Hlt.
           rewrite lookup_app_l in Hlk by lia. done.
        -- intros (s & ls & Hs & Hstart & Hclosed).
           destruct (decide (s = length pre)) as [->|Hne].
           { rewrite Hlast in Hs. injection Hs as <-.
             unfold has_start_marker in Hstart. congruence. }
           apply lookup_lt_Some in Hs as Hlt.
           rewrite length_app in Hlt. simpl in Hlt.
           rewrite lookup_app_l in Hs by lia.
           exists s, ls. split_and!; [done..|].
           intros k lk Hk Hlk. apply (Hclosed k lk Hk).
           by apply lookup_app_l_Some.
Qed.

(** The scanned set, by position. *)
Lemma scan_set_positions src n :
  n ∈ fst (scan_lines 1 src (∅, false)) ↔
  ∃ (i : nat) (line : string),
    src !! i = Some line ∧ n = N.of_nat (S i) ∧
    (has_line_marker line ∨ has_start_marker line ∨ has_stop_marker line ∨
     unclosed (take i src)).
Proof.
  induction src as [|l src IH] using rev_ind.
  - simpl. split; [set_solver|]. by intros (i & line & Hi & _).
  - rewrite scan_lines_snoc.
    pose proof (scan_flag_unclosed 1 src ∅) as Hflag.
    destruct (scan_lines 1 src (∅, false)) as [E b]. simpl in IH, Hflag.
    rewrite scan_line_elem, IH, Hflag. split.
    + intros [(i & line & Hi & -> & Hm) | [-> Hm]].
      * exists i, line. apply lookup_lt_Some in Hi as Hlt.
        split_and!; [by apply lookup_app_l_Some|done|].
        by rewrite take_app_le by lia.
      * exists (length src), l. rewrite list_lookup_middle by done.
        split_and!; [done|lia|]. by rewrite take_app_length.
    + intros (i & line & Hi & -> & Hm).
      apply lookup_lt_Some in Hi as Hlt. rewrite length_app in Hlt.
      simpl in Hlt.
      destruct (decide (i = length src)) as [->|Hne].
      * right. rewrite list_lookup_middle in Hi by done. injection Hi as <-.
        rewrite take_app_length in Hm. split; [lia|done].
      * left. exists i, line. rewrite lookup_app_l in Hi by lia.
        rewrite take_app_le in Hm by lia. done.
Qed.

Lemma unclosed_open_region src i :
  unclosed (take i src) ↔ open_region src (N.of_nat (S i)).
Proof.
  unfold unclosed, open_region, line_at. split.
  - intros (s & ls & Hs & Hstart & Hclosed).
    apply lookup_take_Some in Hs as [Hs Hlt].
    exists (N.of_nat (S s)), ls. split_and!; [lia|by exists s|done|].
    intros k lk Hsk Hkn (j & -> & Hj). apply (Hclosed j); [lia|].
    apply lookup_take_Some. split; [done|lia].
  - intros (s & ls & Hlt & (j & -> & Hj) & Hstart & Hclosed).
    exists j, ls. split_and!; [|done|].
    { apply lookup_take_Some. split; [done|lia]. }
    intros k lk Hjk Hk. apply lookup_take_Some in Hk as [Hk Hki].
    apply (Hclosed (N.of_nat (S k))); [lia|lia|by exists k].
Qed.

(** [find_excluded_lines] builds exactly the set [marked]. *)
Lemma scan_set_marked src n :
  n ∈ fst (scan_lines 1 src (∅, false)) ↔ marked src n.
Proof.
  rewrite scan_set_positions. unfold marked, line_at. split.
  - intros (i & line & Hi & -> & Hm). exists line. split; [by exists i|].
    by rewrite <- unclosed_open_region.
  - intros (line & (i & -> & Hi) & Hm). exists i, line.
    split_and!; [done..|]. by rewrite unclosed_open_region.
Qed.


Lemma prefix_head c p a rest :
  String.prefix (String c p) (String a rest) = true → a = c.
Proof. cbn [String.prefix]. by destruct (ascii_dec c a). Qed.


Lemma da_is_no_brda line :
  startswith line "DA:" = true → re_match_record "BRDA:" line = None.
Proof.
  unfold re_match_record, startswith.
  destruct line as [|a line]; [done|]. by intros ->%prefix_head.
Qed.

(** On a line that is no [SF:] record the three remaining branches of the
    loop body decide by [record_line_number] alone. *)
Lemma filter_line_record fs st line :
  startswith line "SF:" = false →
  filter_line fs st line
  = inr match record_line_number line with
        | Some n => if decide (n ∈ excluded_lines st) then st else keep line st
        | None => keep line st
        end.
Proof.
  intros Hsf. unfold filter_line, filter_record, record_line_number.
  rewrite Hsf.
  destruct (startswith line "DA:") eqn:Hda.
  - destruct (re_match_record "DA:" line); [done|].
    by rewrite da_is_no_brda.
  - assert (re_match_record "DA:" line = None) as ->
      by (unfold re_match_record; by rewrite Hda).
    destruct (startswith line "BRDA:") eqn:Hbr; [done|].
    unfold re_match_record. by rewrite Hbr.
Qed.





(** The set of the specification lies within the scanned one. *)
Lemma spec_excluded_marked src n : spec_excluded src n → marked src n.
Proof.
  intros [(line & Hat & Hm) | (s & e & ls & le & Hs & Hstart & He & Hstop &
                               Hsn & Hne & Hfirst)].
  - exists line. split; [done|]. by left.
  - destruct Hs as (i & -> & Hi), He as (j & -> & Hj).
    assert (Hn : ∃ m : nat, n = N.of_nat (S m) ∧ i ≤ m ≤ j).
    { exists (N.to_nat n - 1). lia. }
    destruct Hn as (m & -> & Him & Hmj).
    destruct (lookup_lt_is_Some_2 src m) as [lm Hlm].
    { apply lookup_lt_Some in Hj. lia. }
    exists lm. split; [by exists m|].
    destruct (decide (m = i)) as [->|Hmi].
    { right. left. congruence. }
    destruct (decide (m = j)) as [->|Hmj'].
    { right. right. left. congruence. }
    right. right. right. exists (N.of_nat (S i)), ls.
    split_and!; [lia|by exists i|done|].
    intros k lk Hik Hkm Hk Hstopk. destruct (Hfirst k lk); [lia|lia|done..].
Qed.










End FilterLcovFacts.

Module RunWithTimeoutFacts.
Import Text RunWithTimeout.

(** *** Strings *)

Lemma append_cons a s t : String a s +:+ t = String a (s +:+ t).
Proof. reflexivity. Qed.

Lemma append_nil_r s : s +:+ EmptyString = s.
Proof. induction s as [|a s IH]; [done|]. by rewrite append_cons, IH. Qed.

Lemma append_assoc s1 s2 s3 : (s1 +:+ s2) +:+ s3 = s1 +:+ (s2 +:+ s3).
Proof.
  induction s1 as [|a s1 IH]; [done|]. by rewrite !append_cons, IH.
Qed.

Lemma join_cons chunk chunks : join (chunk :: chunks) = chunk +:+ join chunks.
Proof.
  unfold join. destruct chunks as [|c chunks]; [|done].
  simpl. by rewrite append_nil_r.
Qed.

Lemma join_snoc chunks chunk : join (chunks ++ [chunk]) = join chunks +:+ chunk.
Proof.
  induction chunks as [|c chunks IH].
  - simpl. by rewrite join_cons, append_nil_r.
  - rewrite <- app_comm_cons, !join_cons, IH. by rewrite append_assoc.
Qed.

Lemma readline_split s : s = fst (readline s) +:+ snd (readline s).
Proof.
  induction s as [|a s IH]; [done|]. simpl.
  destruct (Ascii.eqb a LF); [done|].
  destruct (readline s) as [l r]. simpl in *.
  by rewrite append_cons, <- IH.
Qed.

Lemma readline_eof s rest : readline s = (EmptyString, rest) → s = EmptyString.
Proof.
  destruct s as [|a s]; [done|]. simpl.
  destruct (Ascii.eqb a LF); [done|]. by destruct (readline s).
Qed.

(** *** The captured text and the text to come *)

Lemma consistent_initial w : consistent w (initial w).
Proof.
  intros c. split; [done|]. intros Hc. destruct Hc.
  destruct c; simpl; set_solver.
Qed.

Lemma consistent_prefix w st c :
  consistent w st →
  is_prefix (join (buf st c)) (universal_newlines (raw_output w c)).
Proof. intros Hc. exists (pending st c). symmetry. apply Hc. Qed.

Lemma on_event_consistent w k c st :
  consistent w st →
  match on_event w k c st with
  | Next st' | Throw _ st' => consistent w st'
  end.
Proof.
  intros Hc. unfold on_event.
  destruct (read_error w k c); [done|].
  pose proof (readline_split (pending st c)) as Hsplit.
  destruct (readline (pending st c)) as [chunk rest] eqn:Hread.
  simpl in Hsplit. destruct chunk as [|a chunk].
  - apply readline_eof in Hread. intros c'. simpl. split; [apply Hc|].
    intros Hout. destruct (decide (c' = c)) as [->|Hne]; [done|].
    apply Hc. intros Hin. apply Hout. apply list_elem_of_filter. done.
  - intros c'. simpl. unfold upd.
    destruct (decide (c' = c)) as [->|Hne]; [|apply Hc].
    split.
    + rewrite join_snoc, append_assoc, <- Hsplit. apply Hc.
    + intros Hout. destruct (Hc c) as [_ Hempty].
      rewrite (Hempty Hout) in Hsplit. done.
Qed.

Lemma drain_consistent w k events :
  ∀ st, consistent w st →
        match drain w k events st with
        | Next st' | Throw _ st' => consistent w st'
        end.
Proof.
  induction events as [|c events IH]; intros st Hc; [done|]. simpl.
  pose proof (on_event_consistent w k c st Hc) as Hstep.
  destruct (on_event w k c st) as [st'|e st']; [by apply IH|done].
Qed.

Lemma pass_consistent w timeout_sec k st :
  consistent w st →
  match pass w timeout_sec k st with
  | Continue st' | Break st' | Raise _ st' => consistent w st'
  end.
Proof.
  intros Hc. unfold pass.
  destruct (deadline_passed timeout_sec (clock w k)); [done|].
  pose proof (drain_consistent w k (select w k st) st Hc) as Hd.
  destruct (drain w k (select w k st) st) as [st'|e st']; [|done].
  simpl. by destruct (poll w k), (select w k st).
Qed.

Lemma loop_consistent w timeout_sec fuel :
  ∀ k st, consistent w st →
          consistent w (state_of (loop w timeout_sec fuel k st)).
Proof.
  induction fuel as [|fuel IH]; intros k st Hc; [done|]. simpl.
  pose proof (pass_consistent w timeout_sec k st Hc) as Hp.
  destruct (pass w timeout_sec k st) as [st'|st'|e st']; [by apply IH|done..].
Qed.

(** *** The loop and its fuel *)

Lemma loop_split w timeout_sec n :
  ∀ m k st,
    loop w timeout_sec (n + m) k st
    = match loop w timeout_sec n k st with
      | Unfinished st' => loop w timeout_sec m (n + k) st'
      | r => r
      end.
Proof.
  induction n as [|n IH]; intros m k st; [done|]. simpl.
  destruct (pass w timeout_sec k st) as [st'|st'|e st']; [|done..].
  rewrite IH. by replace (n + S k) with (S (n + k)) by lia.
Qed.

(** A loop that has been left is not changed by more fuel. *)
Lemma loop_more_fuel w timeout_sec fuel fuel' st :
  fuel ≤ fuel' →
  (∀ st', loop w timeout_sec fuel 0 st ≠ Unfinished st') →
  loop w timeout_sec fuel' 0 st = loop w timeout_sec fuel 0 st.
Proof.
  intros Hle Hleft. replace fuel' with (fuel + (fuel' - fuel)) by lia.
  rewrite loop_split.
  destruct (loop w timeout_sec fuel 0 st) as [| |st']; [done..|].
  by destruct (Hleft st').
Qed.

Lemma deadline_passed_lt t elapsed :
  deadline_passed (Some t) elapsed = true ↔ (t < elapsed)%Q.
Proof.
  simpl. rewrite negb_true_iff. split.
  - intros Hle. apply Qnot_le_lt. intros H%Qle_bool_iff. congruence.
  - intros Hlt. destruct (Qle_bool elapsed t) eqn:Hle; [|done].
    apply Qle_bool_iff in Hle. by apply Qlt_not_le in Hlt.
Qed.

(** The deadline check that opens pass [n] fires. *)
Lemma loop_deadline w t n st fuel :
  loop w (Some t) n 0 (initial w) = Unfinished st →
  (t < clock w n)%Q → n < fuel →
  loop w (Some t) fuel 0 (initial w) = Raised n TimeoutError st.
Proof.
  intros Hn Hlt Hfuel. replace fuel with (n + S (fuel - S n)) by lia.
  rewrite loop_split, Hn. simpl. unfold pass.
  apply deadline_passed_lt in Hlt. rewrite Nat.add_0_r.
  by rewrite Hlt.
Qed.

(** The pass in which the loop is left by its [break]. *)
Lemma pass_break w timeout_sec k st st' :
  pass w timeout_sec k st = Break st' →
  deadline_passed timeout_sec (clock w k) = false ∧
  select w k st = [] ∧
  ∃ code, poll w k = Some code ∧ exit_code st' = Some code.
Proof.
  unfold pass. destruct (deadline_passed timeout_sec (clock w k)); [done|].
  destruct (drain w k (select w k st) st) as [st1|e st1]; [|done].
  simpl. destruct (poll w k) as [code|] eqn:Hpoll; [|done].
  destruct (select w k st); [|done].
  intros [= <-]. split_and!; [done..|]. by exists code.
Qed.

Lemma loop_exited w timeout_sec fuel :
  ∀ k0 st0 k st,
    loop w timeout_sec fuel k0 st0 = Exited k st →
    ∃ n st_k, k = n + k0 ∧ n < fuel ∧
              loop w timeout_sec n k0 st0 = Unfinished st_k ∧
              pass w timeout_sec k st_k = Break st.
Proof.
  induction fuel as [|fuel IH]; intros k0 st0 k st; [done|]. simpl.
  destruct (pass w timeout_sec k0 st0) as [st'|st'|e st'] eqn:Hpass; [| |done].
  - intros (n & st_k & -> & Hn & Hloop & Hbreak)%IH.
    exists (S n), st_k. split_and!; [lia|lia| |].
    + simpl. by rewrite Hpass.
    + by replace (S n + k0) with (n + S k0) by lia.
  - intros [= <- <-]. exists 0, st0. split_and!; [done|lia|done..].
Qed.

(** *** The deadline *)

(** C1, as amended.  When the loop reaches the check that opens pass [n]
    and that check finds the elapsed time beyond the deadline,
    [stream_process] returns 124 with the two buffers as they stand; each
    joined buffer is a prefix of the child's output on that stream as the
    text layer translates it (every [\r\n] and lone [\r] read as [\n]),
    never more. *)
Theorem deadline_returns_captured_prefix w cmd t n st fuel :
  spawn_error w = None →
  loop w (Some t) n 0 (initial w) = Unfinished st →
  (t < clock w n)%Q →
  n < fuel →
  fst (stream_process w cmd (Some t) fuel)
  = Returns (Some 124%Z) (join (buf st Stdout)) (join (buf st Stderr)) ∧
  is_prefix (join (buf st Stdout)) (universal_newlines (raw_output w Stdout)) ∧
  is_prefix (join (buf st Stderr)) (universal_newlines (raw_output w Stderr)).
Proof.
  intros Hspawn Hrun Hlate Hfuel.
  assert (Hc : consistent w st).
  { pose proof (loop_consistent w (Some t) n 0 _ (consistent_initial w)) as Hc.
    by rewrite Hrun in Hc. }
  split_and!; [|by apply consistent_prefix..].
  unfold stream_process. rewrite Hspawn.
  by rewrite (loop_deadline w t n st fuel).
Qed.

Lemma deadline_returns_captured_prefix_witness :
  fst (stream_process two_lines ["tail"; "-f"; "log"] (Some (1 # 20)%Q) 2)
  = Returns (Some 124%Z) (line "a") EmptyString ∧
  is_prefix (line "a") (universal_newlines (raw_output two_lines Stdout)).
Proof.
  assert (Hrun : ∃ st, loop two_lines (Some (1 # 20)%Q) 1 0 (initial two_lines)
                       = Unfinished st ∧
                       join (buf st Stdout) = line "a" ∧
                       join (buf st Stderr) = EmptyString).
  { eexists. split; [reflexivity|]. by vm_compute. }
  destruct Hrun as (st & Hrun & Hout & Herr).
  destruct (deadline_returns_captured_prefix two_lines ["tail"; "-f"; "log"]
              (1 # 20)%Q 1 st 2) as (Hret & Hpre & _).
  - reflexivity.
  - exact Hrun.
  - reflexivity.
  - lia.
  - rewrite Hout, Herr in Hret. rewrite Hout in Hpre. by split.
Defined.

(** C1 as stated fails on a child that ends a line with [\r\n]: what is
    captured when the deadline passes holds [\n] where the child wrote
    [\r\n], and is no prefix of what the child writes. *)
Lemma deadline_capture_is_no_raw_prefix :
  fst (stream_process two_lines ["tail"; "-f"; "log"] (Some (1 # 20)%Q) 2)
  = Returns (Some 124%Z) (line "a") EmptyString ∧
  raw_output two_lines Stdout = crlf "a" +:+ line "b" ∧
  ¬ is_prefix (line "a") (raw_output two_lines Stdout).
Proof.
  split_and!; [by vm_compute|by vm_compute|].
  intros [rest Hrest]. vm_compute in Hrest. discriminate Hrest.
Qed.

(** *** Leaving the loop by its [break] *)

(** Leaving by the [break], traced back to the pass that took it. *)
Lemma exited_pass w timeout_sec fuel k st :
  loop w timeout_sec fuel 0 (initial w) = Exited k st →
  ∃ st_k code,
    loop w timeout_sec k 0 (initial w) = Unfinished st_k ∧
    deadline_passed timeout_sec (clock w k) = false ∧
    select w k st_k = [] ∧
    poll w k = Some code ∧
    exit_code st = Some code.
Proof.
  intros (n & st_k & -> & _ & Hrun & Hbreak)%loop_exited.
  rewrite Nat.add_0_r in *.
  apply pass_break in Hbreak as (Hdl & Hsel & code & Hpoll & Hcode).
  by exists st_k, code.
Qed.

(** C7.  The loop is left by its [break] only in a pass whose deadline
    check did not fire, whose [select] returned no event, and at whose end
    [poll] reported the child exited: never while the child is still
    running, never after a pass that produced events. *)
Theorem break_needs_exit_and_no_events w timeout_sec fuel k st :
  loop w timeout_sec fuel 0 (initial w) = Exited k st →
  ∃ st_k code,
    loop w timeout_sec k 0 (initial w) = Unfinished st_k ∧
    deadline_passed timeout_sec (clock w k) = false ∧
    select w k st_k = [] ∧
    poll w k = Some code ∧
    exit_code st = Some code.
Proof.
  intros Hexit.
  destruct (loop_exited w timeout_sec fuel 0 (initial w) k st Hexit)
    as (n & st_k & Hk & _ & Hrun & Hbreak).
  rewrite Nat.add_0_r in Hk. subst n.
  destruct (pass_break w timeout_sec k st_k st Hbreak)
    as (Hcheck & Hevents & code & Hpoll & Hcode).
  exists st_k, code. by split_and!.
Qed.

Lemma break_needs_exit_and_no_events_witness :
  ∃ st_k code,
    loop echo_hello (Some 5%Q) 2 0 (initial echo_hello) = Unfinished st_k ∧
    deadline_passed (Some 5%Q) (clock echo_hello 2) = false ∧
    select echo_hello 2 st_k = [] ∧
    poll echo_hello 2 = Some code ∧
    code = 0%Z.
Proof.
  assert (Hrun : ∃ st, loop echo_hello (Some 5%Q) 3 0 (initial echo_hello)
                       = Exited 2 st ∧ exit_code st = Some 0%Z).
  { eexists. split; [reflexivity|]. by vm_compute. }
  destruct Hrun as (st & Hrun & Hzero).
  destruct (break_needs_exit_and_no_events echo_hello (Some 5%Q) 3 2 st Hrun)
    as (st_k & code & H1 & H2 & H3 & H4 & H5).
  exists st_k, code. split_and!; [done..|]. congruence.
Defined.




(** *** The kill *)

Lemma kill_child_dead target table p :
  p ∈ kill target table → pid p = target → alive p = false.
Proof.
  unfold kill. intros (q & -> & Hq)%list_elem_of_fmap.
  destruct (Nat.eqb (pid q) target) eqn:Heq; [done|].
  intros Hpid. apply Nat.eqb_neq in Heq. done.
Qed.

Lemma kill_spares_others target table p :
  p ∈ table → pid p ≠ target → p ∈ kill target table.
Proof.
  intros Hin Hne. unfold kill. apply list_elem_of_fmap. exists p.
  split; [|done]. apply Nat.eqb_neq in Hne. by rewrite Hne.
Qed.

(** C5, as amended.  When the deadline check fires, [stream_process]
    signals the child and nothing else: if [kill] goes through the child is
    dead afterwards (if it raises, the exception is swallowed), and every
    other process, those of the child's process group included, is left as
    it was. *)
Theorem deadline_kills_the_child_only w cmd t n st fuel :
  spawn_error w = None →
  loop w (Some t) n 0 (initial w) = Unfinished st →
  (t < clock w n)%Q →
  n < fuel →
  let after := procs (snd (stream_process w cmd (Some t) fuel)) in
  (kill_ok w = true →
     ∀ p, p ∈ after → pid p = child_pid w → alive p = false) ∧
  (∀ p, p ∈ processes w → pid p ≠ child_pid w → p ∈ after).
Proof.
  intros Hspawn Hrun Hlate Hfuel. unfold stream_process.
  rewrite Hspawn, (loop_deadline w t n st fuel) by done. simpl. split.
  - intros ->. apply kill_child_dead.
  - intros p Hp Hne. destruct (kill_ok w); [|done].
    by apply kill_spares_others.
Qed.

Lemma deadline_kills_the_child_only_witness :
  let after := procs (snd (stream_process forked ["sleep"; "10"] (Some 0%Q) 1)) in
  (∀ p, p ∈ after → pid p = 100 → alive p = false) ∧
  {| pid := 101; pgid := 7; alive := true |} ∈ after.
Proof.
  destruct (deadline_kills_the_child_only forked ["sleep"; "10"] 0%Q 0
              (initial forked) 1) as [Hdead Hspared].
  - reflexivity.
  - reflexivity.
  - reflexivity.
  - lia.
  - split.
    + exact (Hdead eq_refl).
    + apply Hspared; [|vm_compute; lia].
      apply elem_of_cons. right. apply elem_of_cons. by left.
Defined.

(** C5 as stated fails: a process the child has forked, in the child's
    process group, is alive after the deadline has fired and
    [stream_process] has returned. *)
Lemma deadline_leaves_descendant_alive :
  fst (stream_process forked ["sleep"; "10"] (Some 0%Q) 1)
  = Returns (Some 124%Z) EmptyString EmptyString ∧
  ∃ p, p ∈ procs (snd (stream_process forked ["sleep"; "10"] (Some 0%Q) 1)) ∧
       pid p ≠ child_pid forked ∧ pgid p = 7 ∧ alive p = true.
Proof.
  split; [by vm_compute|].
  exists {| pid := 101; pgid := 7; alive := true |}.
  split_and!; [|vm_compute; lia|done..].
  vm_compute. apply elem_of_cons. right. apply elem_of_cons. by left.
Qed.

(** *** Reads that do not fail *)






(** *** One result *)

(** C6, as amended.  An invocation that has returned or raised keeps that
    one outcome, and that one system around it, whatever fuel is added;
    what it returns has three components: an exit status that is not
    [None], the standard output text and the standard error text
    accumulated in the buffers.  The elapsed time is not among them. *)
Theorem one_result_per_invocation w cmd timeout_sec fuel fuel' :
  fst (stream_process w cmd timeout_sec fuel) ≠ Runs →
  fuel ≤ fuel' →
  stream_process w cmd timeout_sec fuel' = stream_process w cmd timeout_sec fuel ∧
  ∀ code out err,
    fst (stream_process w cmd timeout_sec fuel) = Returns code out err →
    let st := state_of (loop w timeout_sec fuel 0 (initial w)) in
    (∃ c, code = Some c) ∧
    out = join (buf st Stdout) ∧ err = join (buf st Stderr).
Proof.
  intros Hleft Hle. unfold stream_process in *.
  destruct (spawn_error w) as [e|]; [done|]. split.
  - rewrite (loop_more_fuel w timeout_sec fuel fuel'); [done..|].
    intros st' Hrun. by rewrite Hrun in Hleft.
  - intros code out err.
    destruct (loop w timeout_sec fuel 0 (initial w)) as [k st|k e st|st]
      eqn:Hrun; simpl.
    + destruct (exited_pass _ _ _ _ _ Hrun)
        as (_ & c & _ & _ & _ & _ & Hcode).
      intros [= <- <- <-]. split; [by exists c|done].
    + destruct e; [|done..]. intros [= <- <- <-]. split; [by eexists|done].
    + done.
Qed.

Lemma one_result_per_invocation_witness :
  stream_process echo_hello ["echo"; "hello"] (Some 5%Q) 40
  = stream_process echo_hello ["echo"; "hello"] (Some 5%Q) 3.
Proof.
  destruct (one_result_per_invocation echo_hello ["echo"; "hello"]
              (Some 5%Q) 3 40) as [Hsame _].
  - vm_compute. discriminate.
  - lia.
  - exact Hsame.
Defined.

(** C6 as stated fails: the elapsed time is no part of what is returned.
    Two runs that differ in their clocks alone return the same value, so
    nothing computed from the value is the elapsed time of the run. *)
Lemma result_carries_no_elapsed_time :
  ¬ ∃ elapsed_of : outcome → Q,
      ∀ w cmd fuel k st,
        spawn_error w = None →
        loop w None fuel 0 (initial w) = Exited k st →
        (elapsed_of (fst (stream_process w cmd None fuel)) == clock w k)%Q.
Proof.
  intros [elapsed_of Hel].
  assert (H1 : ∃ st, loop echo_hello None 3 0 (initial echo_hello) = Exited 2 st)
    by (eexists; reflexivity).
  assert (H2 : ∃ st, loop (with_clock (λ _, 1%Q) echo_hello) None 3 0
                       (initial (with_clock (λ _, 1%Q) echo_hello))
                     = Exited 2 st)
    by (eexists; reflexivity).
  destruct H1 as [st1 H1], H2 as [st2 H2].
  pose proof (Hel echo_hello ["echo"; "hello"] 3 2 st1 eq_refl H1) as E1.
  pose proof (Hel (with_clock (λ _, 1%Q) echo_hello) ["echo"; "hello"] 3 2 st2
                eq_refl H2) as E2.
  assert (Hsame : fst (stream_process (with_clock (λ _, 1%Q) echo_hello)
                         ["echo"; "hello"] None 3)
                  = fst (stream_process echo_hello ["echo"; "hello"] None 3))
    by (by vm_compute).
  rewrite Hsame, E1 in E2. by vm_compute in E2.
Qed.

(** *** Failing writes, failing reads *)

Lemma on_event_sinks w ok k c st st' :
  same_capture st st' →
  match on_event w k c st, on_event (with_sinks ok w) k c st' with
  | Next a, Next b => same_capture a b
  | Throw e a, Throw e' b => e = e' ∧ same_capture a b
  | _, _ => False
  end.
Proof.
  intros (Hr & Hp & Hb & He). unfold on_event. simpl.
  destruct (read_error w k c); [done|].
  rewrite <- (Hp c).
  destruct (readline (pending st c)) as [[|a chunk] rest].
  - split_and!; simpl; [by rewrite Hr|done..].
  - split_and!; simpl; [done| | |done].
    + intros c'. unfold upd. by case_decide.
    + intros c'. unfold upd. rewrite (Hb c). by case_decide.
Qed.

Lemma drain_sinks w ok k events :
  ∀ st st',
    same_capture st st' →
    match drain w k events st, drain (with_sinks ok w) k events st' with
    | Next a, Next b => same_capture a b
    | Throw e a, Throw e' b => e = e' ∧ same_capture a b
    | _, _ => False
    end.
Proof.
  induction events as [|c events IH]; intros st st' Hs; [done|]. simpl.
  pose proof (on_event_sinks w ok k c st st' Hs) as Hstep.
  destruct (on_event w k c st) as [a|e a],
           (on_event (with_sinks ok w) k c st') as [b|e' b]; try done.
  by apply IH.
Qed.

Lemma pass_sinks w ok timeout_sec k st st' :
  same_capture st st' →
  match pass w timeout_sec k st, pass (with_sinks ok w) timeout_sec k st' with
  | Continue a, Continue b | Break a, Break b => same_capture a b
  | Raise e a, Raise e' b => e = e' ∧ same_capture a b
  | _, _ => False
  end.
Proof.
  intros Hs. unfold pass. simpl.
  destruct (deadline_passed timeout_sec (clock w k)); [done|].
  assert (Hsel : select (with_sinks ok w) k st' = select w k st).
  { unfold select. simpl. destruct Hs as [-> _]. done. }
  rewrite Hsel.
  pose proof (drain_sinks w ok k (select w k st) st st' Hs) as Hd.
  destruct (drain w k (select w k st) st) as [a|e a],
           (drain (with_sinks ok w) k (select w k st) st') as [b|e' b];
    try done.
  assert (Hset : same_capture (set_exit_code (poll w k) a)
                              (set_exit_code (poll w k) b)).
  { destruct Hd as (? & ? & ? & ?). by split_and!. }
  simpl. by destruct (poll w k), (select w k st).
Qed.

Lemma loop_sinks w ok timeout_sec fuel :
  ∀ k st st',
    same_capture st st' →
    match loop w timeout_sec fuel k st,
          loop (with_sinks ok w) timeout_sec fuel k st' with
    | Exited i a, Exited j b => i = j ∧ same_capture a b
    | Raised i e a, Raised j e' b => i = j ∧ e = e' ∧ same_capture a b
    | Unfinished a, Unfinished b => same_capture a b
    | _, _ => False
    end.
Proof.
  induction fuel as [|fuel IH]; intros k st st' Hs; [done|]. simpl.
  pose proof (pass_sinks w ok timeout_sec k st st' Hs) as Hp.
  destruct (pass w timeout_sec k st) as [a|a|e a],
           (pass (with_sinks ok w) timeout_sec k st') as [b|b|e' b];
    try done.
  by apply IH.
Qed.

Lemma drain_read_error w k events c e :
  c ∈ events → read_error w k c = Some e →
  ∀ st, ∃ e' st', drain w k events st = Throw e' st'.
Proof.
  intros Hin Herr. induction events as [|c' events IH]; intros st.
  - by apply elem_of_nil in Hin.
  - simpl. destruct (on_event w k c' st) as [st1|e1 st1] eqn:Hev;
      [|by exists e1, st1].
    apply elem_of_cons in Hin as [->|Hin]; [|by apply IH].
    unfold on_event in Hev. by rewrite Herr in Hev.
Qed.

(** C4, as amended.  A write to a sink that fails is swallowed: which
    writes go through changes nothing in what [stream_process] returns or
    raises.  A read that fails is not caught: when [select] hands over a
    channel whose [readline] raises, the loop is left in that very pass
    with an exception, which [stream_process] raises unless it is a
    [TimeoutError]; the other channel is not drained any further. *)
Theorem sink_failure_is_swallowed_read_failure_is_not w cmd timeout_sec :
  (∀ ok fuel,
     fst (stream_process (with_sinks ok w) cmd timeout_sec fuel)
     = fst (stream_process w cmd timeout_sec fuel)) ∧
  (∀ k st c e fuel,
     loop w timeout_sec k 0 (initial w) = Unfinished st →
     deadline_passed timeout_sec (clock w k) = false →
     c ∈ select w k st →
     read_error w k c = Some e →
     k < fuel →
     ∃ e' st',
       loop w timeout_sec fuel 0 (initial w) = Raised k e' st' ∧
       (spawn_error w = None → e' ≠ TimeoutError →
        fst (stream_process w cmd timeout_sec fuel) = Raises e')).
Proof.
  split.
  - intros ok fuel. unfold stream_process. simpl.
    destruct (spawn_error w); [done|].
    assert (Hinit : same_capture (initial w) (initial (with_sinks ok w)))
      by done.
    pose proof (loop_sinks w ok timeout_sec fuel 0 _ _ Hinit) as Hl.
    destruct (loop w timeout_sec fuel 0 (initial w)) as [i a|i e a|a],
             (loop (with_sinks ok w) timeout_sec fuel 0
                (initial (with_sinks ok w))) as [j b|j e' b|b];
      try done; simpl.
    + destruct Hl as (_ & _ & _ & Hb & ->). by rewrite !Hb.
    + destruct Hl as (_ & <- & _ & _ & Hb & _).
      destruct e; simpl; [by rewrite !Hb|done..].
  - intros k st c e fuel Hrun Hdl Hin Herr Hfuel.
    destruct (drain_read_error w k (select w k st) c e Hin Herr st)
      as (e' & st' & Hdrain).
    assert (Hloop : loop w timeout_sec fuel 0 (initial w) = Raised k e' st').
    { replace fuel with (k + S (fuel - S k)) by lia.
      rewrite loop_split, Hrun. simpl. rewrite Nat.add_0_r.
      unfold pass. by rewrite Hdl, Hdrain. }
    exists e', st'. split; [done|].
    intros Hspawn Hne. unfold stream_process. rewrite Hspawn, Hloop.
    by destruct e'.
Qed.

Lemma sink_failure_is_swallowed_read_failure_is_not_witness :
  fst (stream_process (with_sinks (λ _ _, false) garbled) ["cat"; "blob"] None 1)
  = fst (stream_process garbled ["cat"; "blob"] None 1) ∧
  ∃ e' st',
    loop garbled None 1 0 (initial garbled) = Raised 0 e' st' ∧
    (e' ≠ TimeoutError →
     fst (stream_process garbled ["cat"; "blob"] None 1) = Raises e').
Proof.
  destruct (sink_failure_is_swallowed_read_failure_is_not garbled
              ["cat"; "blob"] None) as [Hsink Hread].
  split; [exact (Hsink (λ _ _, false) 1)|].
  destruct (Hread 0 (initial garbled) Stdout UnicodeDecodeError 1)
    as (e' & st' & Hloop & Hraise).
  - reflexivity.
  - reflexivity.
  - vm_compute. apply elem_of_cons. by left.
  - reflexivity.
  - lia.
  - exists e', st'. split; [exact Hloop|]. exact (Hraise eq_refl).
Defined.

(** C4 as stated fails: the first pass finds both channels readable, the
    read on the standard output raises, and with it the loop is over,
    whatever the fuel: the line waiting on the standard error, whose
    channel is still registered, is never drained. *)
Lemma read_failure_ends_the_loop :
  (∀ fuel, 0 < fuel →
     fst (stream_process garbled ["cat"; "blob"] None fuel)
     = Raises UnicodeDecodeError) ∧
  ∃ st, loop garbled None 1 0 (initial garbled)
        = Raised 0 UnicodeDecodeError st ∧
        Stderr ∈ registered st ∧
        buf st Stderr = [] ∧
        pending st Stderr = line "warning".
Proof.
  split.
  - intros [|fuel] Hfuel; [lia|]. reflexivity.
  - eexists. split; [reflexivity|]. split_and!; [|by vm_compute..].
    vm_compute. apply elem_of_cons. right. apply elem_of_cons. by left.
Qed.

(** *** The command line *)

Lemma print_report sys report :
  stderr_sink (fold_left (λ s text, print_err text s) report sys)
  = stderr_sink sys ++ map line report.
Proof.
  revert sys. induction report as [|text report IH]; intros sys; simpl.
  - by rewrite app_nil_r.
  - rewrite IH. simpl. by rewrite <- app_assoc.
Qed.



End RunWithTimeoutFacts.

(** ** More on [utils/filter_lcov_exclusions.py] *)

Module FilterLcovMore.
Import Text FilterLcov FilterLcovFacts.

(** *** What the loop does to the lines *)

(** One run of the loop, and the same run again over what it kept. *)
Lemma filter_lines_again fs lines :
  ∀ st st',
    filter_lines fs lines st = inr st' →
    ∃ out,
      filtered_lines st' = filtered_lines st ++ out ∧
      out `sublist_of` lines ∧
      (∀ line, line ∈ lines → record_line_number line = None → line ∈ out) ∧
      ∀ st2, excluded_lines st2 = excluded_lines st →
             ∃ st2', filter_lines fs out st2 = inr st2' ∧
                     filtered_lines st2' = filtered_lines st2 ++ out ∧
                     excluded_lines st2' = excluded_lines st'.
Proof.
  induction lines as [|line rest IH]; intros st st' Hrun.
  - injection Hrun as <-. exists []. rewrite app_nil_r.
    split_and!; [done|done|by intros l Hl%elem_of_nil|].
    intros st2 Hst2. exists st2. by rewrite app_nil_r.
  - cbn [filter_lines] in Hrun.
    destruct (filter_line fs st line) as [e|st1] eqn:Hstep; [done|].
    destruct (IH st1 st' Hrun) as (out & Hout & Hsub & Hkept & Hagain).
    destruct (startswith line "SF:") eqn:Hsf.
    + (* an SF: record is kept and sets the exclusion set *)
      unfold filter_line in Hstep. rewrite Hsf in Hstep.
      destruct (find_excluded_lines fs (strip (drop_chars 3 line)))
        as [e|excl] eqn:Hfind; [done|].
      injection Hstep as <-. cbn [filtered_lines excluded_lines] in *.
      exists (line :: out). split_and!.
      * by rewrite Hout, <- app_assoc.
      * by constructor.
      * intros l Hl Hrec. apply elem_of_cons in Hl as [->|Hl]; [by left|].
        right. by apply Hkept.
      * intros st2 Hst2. cbn [filter_lines]. unfold filter_line.
        rewrite Hsf, Hfind.
        edestruct Hagain as (st2' & Hrun2 & Hout2 & Hexcl2); [|rewrite Hrun2].
        { done. }
        exists st2'. split_and!; [done| |done].
        rewrite Hout2. cbn [keep filtered_lines]. by rewrite <- app_assoc.
    + rewrite filter_line_record in Hstep by done.
      assert (Hdrop :
        ∀ n, record_line_number line = Some n → n ∈ excluded_lines st →
             st1 = st).
      { intros n Hrec Hin. rewrite Hrec in Hstep.
        rewrite decide_True in Hstep by done. by injection Hstep. }
      assert (Hkeep :
        (∀ n, record_line_number line = Some n → n ∉ excluded_lines st) →
        st1 = keep line st).
      { intros Hfree. destruct (record_line_number line) as [n|].
        - rewrite decide_False in Hstep by (by apply Hfree).
          by injection Hstep.
        - by injection Hstep. }
      destruct (record_line_number line) as [n|] eqn:Hrec.
      * destruct (decide (n ∈ excluded_lines st)) as [Hin|Hnin].
        -- (* a dropped record *)
           rewrite (Hdrop n eq_refl Hin) in *.
           exists out. split_and!; [done|by constructor| |done].
           intros l Hl Hnone. apply elem_of_cons in Hl as [->|Hl];
             [congruence|by apply Hkept].
        -- (* a kept record *)
           rewrite Hkeep in * by (intros ? [= <-]; done).
           cbn [keep filtered_lines excluded_lines] in *.
           exists (line :: out). split_and!.
           ++ by rewrite Hout, <- app_assoc.
           ++ by constructor.
           ++ intros l Hl Hnone. apply elem_of_cons in Hl as [->|Hl];
                [by left|]. right. by apply Hkept.
           ++ intros st2 Hst2. cbn [filter_lines].
              rewrite filter_line_record by done.
              rewrite Hrec, Hst2. rewrite decide_False by done.
              edestruct (Hagain (keep line st2)) as (st2' & Hrun2 & Hout2 & Hexcl2);
                [done|rewrite Hrun2].
              exists st2'. split_and!; [done| |done].
              rewrite Hout2. cbn [keep filtered_lines]. by rewrite <- app_assoc.
      * (* any other line *)
        rewrite Hkeep in * by done.
        cbn [keep filtered_lines excluded_lines] in *.
        exists (line :: out). split_and!.
        -- by rewrite Hout, <- app_assoc.
        -- by constructor.
        -- intros l Hl Hnone. apply elem_of_cons in Hl as [->|Hl];
             [by left|]. right. by apply Hkept.
        -- intros st2 Hst2. cbn [filter_lines].
              rewrite filter_line_record by done.
           rewrite Hrec.
           edestruct (Hagain (keep line st2)) as (st2' & Hrun2 & Hout2 & Hexcl2);
             [done|rewrite Hrun2].
           exists st2'. split_and!; [done| |done].
           rewrite Hout2. cbn [keep filtered_lines]. by rewrite <- app_assoc.
Qed.

Lemma open_write_result fs path lines fs' :
  open_write fs path lines = inr fs' → fs' = <[path := File lines]> fs.
Proof.
  unfold open_write. destruct (fs !! path) as [[|e]|]; by intros [= <-].
Qed.

(** X1.  Whenever [filter_lcov] succeeds, the file it writes holds lines of
    the input only, unmodified and in their order, and among them every line
    that is no [DA:] or [BRDA:] record; no other path is written. *)
Theorem filter_lcov_only_drops_records fs input_path output_path fs' :
  filter_lcov fs input_path output_path = inr fs' →
  ∃ lines out,
    open_read fs input_path = inr lines ∧
    fs' = <[output_path := File out]> fs ∧
    out `sublist_of` lines ∧
    (∀ line, line ∈ lines → record_line_number line = None → line ∈ out).
Proof.
  unfold filter_lcov.
  destruct (open_read fs input_path) as [e|lines]; [done|].
  destruct (filter_lines fs lines initial) as [e|st] eqn:Hrun; [done|].
  intros Hw%open_write_result.
  destruct (filter_lines_again fs lines initial st Hrun)
    as (out & Hout & Hsub & Hkept & _).
  simpl in Hout. rewrite Hout in Hw. by exists lines, out.
Qed.

Lemma filter_lcov_only_drops_records_witness :
  ∃ lines out,
    open_read sample_fs "merged.lcov" = inr lines ∧
    out `sublist_of` lines ∧
    (∀ line, line ∈ lines → record_line_number line = None → line ∈ out).
Proof.
  assert (Hrun : ∃ fs', filter_lcov sample_fs "merged.lcov" "filtered.lcov"
                        = inr fs')
    by (eexists; vm_compute; reflexivity).
  destruct Hrun as [fs' Hrun].
  destruct (filter_lcov_only_drops_records sample_fs "merged.lcov"
              "filtered.lcov" fs' Hrun) as (lines & out & H1 & _ & H3 & H4).
  by exists lines, out.
Defined.

(** Writing a path no [SF:] record names does not change the run. *)
Lemma filter_lines_other_path fs path node lines :
  (∀ line, line ∈ lines → startswith line "SF:" = true →
           sf_path line ≠ path) →
  ∀ st, filter_lines (<[path := node]> fs) lines st = filter_lines fs lines st.
Proof.
  induction lines as [|line rest IH]; intros Hother st; [done|].
  cbn [filter_lines].
  assert (Hstep : filter_line (<[path := node]> fs) st line
                  = filter_line fs st line).
  { unfold filter_line. destruct (startswith line "SF:") eqn:Hsf; [|done].
    unfold find_excluded_lines, open_read.
    rewrite lookup_insert_ne; [done|].
    intros Heq. apply (Hother line); [by left|done|done]. }
  rewrite Hstep. destruct (filter_line fs st line); [done|].
  apply IH. intros l Hl. apply Hother. by right.
Qed.

(** X2.  Filtering a file onto itself twice changes nothing the second
    time, as long as the coverage file is not itself one of the source files
    its [SF:] records name. *)
Theorem filter_lcov_in_place_twice fs path lines fs' :
  open_read fs path = inr lines →
  (∀ line, line ∈ lines → startswith line "SF:" = true →
           sf_path line ≠ path) →
  filter_lcov fs path path = inr fs' →
  filter_lcov fs' path path = inr fs'.
Proof.
  intros Hread Hother. unfold filter_lcov at 1. rewrite Hread.
  destruct (filter_lines fs lines initial) as [e|st] eqn:Hrun; [done|].
  intros ->%open_write_result.
  destruct (filter_lines_again fs lines initial st Hrun)
    as (out & Hout & Hsub & _ & Hagain).
  cbn [initial filtered_lines app] in Hout. rewrite Hout.
  destruct (Hagain initial eq_refl) as (st2 & Hrun2 & Hout2 & _).
  cbn [initial filtered_lines app] in Hout2.
  unfold filter_lcov, open_read at 1. rewrite lookup_insert_eq.
  rewrite filter_lines_other_path, Hrun2, Hout2.
  - unfold open_write. rewrite lookup_insert_eq. by rewrite insert_insert_eq.
  - intros line Hline. apply Hother.
    by apply (elem_of_sublist out lines).
Qed.

Lemma filter_lcov_in_place_twice_witness :
  ∃ fs', filter_lcov sample_fs "merged.lcov" "merged.lcov" = inr fs' ∧
         filter_lcov fs' "merged.lcov" "merged.lcov" = inr fs'.
Proof.
  assert (Hrun : ∃ fs', filter_lcov sample_fs "merged.lcov" "merged.lcov"
                        = inr fs')
    by (eexists; vm_compute; reflexivity).
  destruct Hrun as [fs' Hrun]. exists fs'. split; [exact Hrun|].
  apply (filter_lcov_in_place_twice sample_fs "merged.lcov" sample_coverage).
  - reflexivity.
  - intros line Hin Hsf. unfold sample_coverage in Hin.
    repeat (apply elem_of_cons in Hin as [->|Hin]);
      try (vm_compute in Hsf; discriminate Hsf);
      try (vm_compute; discriminate).
    by apply elem_of_nil in Hin.
  - exact Hrun.
Defined.

(** *** What the scan excludes *)





Lemma find_excluded_lines_file fs path src :
  fs !! path = Some (File src) →
  find_excluded_lines fs path = inr (fst (scan_lines 1 src (∅, false))).
Proof. intros Hp. unfold find_excluded_lines, open_read. by rewrite Hp. Qed.

(** X4.  A start marker that no stop marker follows excludes every line from
    its own to the last line of the file. *)
Theorem unclosed_start_excludes_to_the_end fs path src excluded (s n : N) ls :
  fs !! path = Some (File src) →
  find_excluded_lines fs path = inr excluded →
  line_at src s ls → has_start_marker ls →
  (∀ k lk, (s < k)%N → line_at src k lk → ¬ has_stop_marker lk) →
  (s ≤ n)%N → (n ≤ N.of_nat (length src))%N →
  n ∈ excluded.
Proof.
  intros Hp Hfind Hs Hstart Hnostop Hsn Hn.
  rewrite (find_excluded_lines_file fs path src Hp) in Hfind.
  injection Hfind as <-. apply scan_set_marked.
  destruct Hs as (i & -> & Hi).
  destruct (lookup_lt_is_Some_2 src (N.to_nat n - 1)) as [ln Hln]; [lia|].
  assert (Hat : line_at src n ln).
  { exists (N.to_nat n - 1). split; [lia|done]. }
  exists ln. split; [done|].
  destruct (decide (n = N.of_nat (S i))) as [->|Hne].
  - right. left. destruct Hat as (j & Hj & Hlj).
    assert (j = i) as -> by lia. congruence.
  - right. right. right. exists (N.of_nat (S i)), ls.
    split_and!; [lia|by exists i|done|].
    intros k lk Hk _ Hat' Hstop. by destruct (Hnostop k lk).
Qed.

Lemma unclosed_start_excludes_to_the_end_witness :
  ∃ excluded,
    find_excluded_lines
      (<["c.c" := File ["// LCOV_EXCL_START" +:+ LF; "f();" +:+ LF;
                        "g();" +:+ LF]]> ∅) "c.c" = inr excluded ∧
    3%N ∈ excluded.
Proof.
  eexists. split; [reflexivity|].
  apply (unclosed_start_excludes_to_the_end
           (<["c.c" := File ["// LCOV_EXCL_START" +:+ LF; "f();" +:+ LF;
                             "g();" +:+ LF]]> ∅) "c.c"
           ["// LCOV_EXCL_START" +:+ LF; "f();" +:+ LF; "g();" +:+ LF]
           _ 1%N 3%N ("// LCOV_EXCL_START" +:+ LF)).
  - reflexivity.
  - reflexivity.
  - by exists 0.
  - by vm_compute.
  - intros k lk Hk (i & -> & Hi) Hstop.
    destruct i as [|[|[|i]]]; [lia| | |done];
      injection Hi as <-; by vm_compute in Hstop.
  - lia.
  - simpl. lia.
Defined.

(** X5.  Every excluded number is the number of a line of the file, and a
    line at or above it bears a marker: nothing is excluded above the first
    marker, nothing beyond the last line, and never line 0. *)
Theorem excluded_lines_lie_below_a_marker fs path excluded n :
  find_excluded_lines fs path = inr excluded →
  n ∈ excluded →
  ∃ src,
    fs !! path = Some (File src) ∧
    (1 ≤ n)%N ∧ (n ≤ N.of_nat (length src))%N ∧
    ∃ m line, (m ≤ n)%N ∧ line_at src m line ∧
              (has_line_marker line ∨ has_start_marker line ∨
               has_stop_marker line).
Proof.
  unfold find_excluded_lines, open_read.
  destruct (fs !! path) as [[src|e]|] eqn:Hp.
  - intros [= <-] Hin. apply scan_set_marked in Hin.
    destruct Hin as (line & (i & -> & Hi) & Hm).
    exists src. apply lookup_lt_Some in Hi as Hlt.
    split_and!; [done|lia|lia|].
    destruct Hm as [?|[?|[?|(s & ls & Hlt' & Hs & Hstart & _)]]].
    + exists (N.of_nat (S i)), line. split_and!; [lia|by exists i|tauto].
    + exists (N.of_nat (S i)), line. split_and!; [lia|by exists i|tauto].
    + exists (N.of_nat (S i)), line. split_and!; [lia|by exists i|tauto].
    + exists s, ls. split_and!; [lia|done|tauto].
  - destruct e; [|done..]. intros [= <-] Hin. set_solver.
  - intros [= <-] Hin. set_solver.
Qed.

Lemma excluded_lines_lie_below_a_marker_witness :
  ∃ src, sample_fs !! "a.c" = Some (File src) ∧
         (1 ≤ 3)%N ∧ (3 ≤ N.of_nat (length src))%N.
Proof.
  destruct (excluded_lines_lie_below_a_marker sample_fs "a.c"
              (fst (scan_lines 1 sample_source (∅, false))) 3%N)
    as (src & H1 & H2 & H3 & _).
  - reflexivity.
  - by vm_compute.
  - by exists src.
Defined.

(** *** Markers used as brackets *)

(** The first stop marker at or below a line, given that there is one. *)
Lemma first_stop_index (src : list string) d :
  ∀ i, (∃ l, src !! (i + d) = Some l ∧ has_stop_marker l) →
       ∃ e l, i ≤ e ≤ i + d ∧ src !! e = Some l ∧ has_stop_marker l ∧
              ∀ k lk, i ≤ k < e → src !! k = Some lk → ¬ has_stop_marker lk.
Proof.
  induction d as [|d IH]; intros i (l & Hl & Hstop).
  - rewrite Nat.add_0_r in Hl. exists i, l. split_and!; [lia|lia|done|done|].
    intros k lk Hk. lia.
  - destruct (src !! i) as [li|] eqn:Hi.
    + destruct (contains "LCOV_EXCL_STOP" li) eqn:Hc.
      * exists i, li. split_and!; [lia|lia|done|done|]. intros k lk Hk. lia.
      * destruct (IH (S i)) as (e & le & He & Hle & Hse & Hfirst).
        { exists l. by replace (S i + d) with (i + S d) by lia. }
        exists e, le. split_and!; [lia|lia|done|done|].
        intros k lk Hk Hlk. destruct (decide (k = i)) as [->|Hne].
        -- rewrite Hi in Hlk. injection Hlk as <-.
           unfold has_stop_marker. congruence.
        -- apply (Hfirst k lk); [lia|done].
    + apply lookup_ge_None in Hi. apply lookup_lt_Some in Hl. lia.
Qed.

(** A region opened at line [s] that no stop marker closes before line [n]
    and that some stop marker closes: line [n] lies between the brackets. *)
Lemma open_until_bracketed src (s n : N) ls ln :
  line_at src s ls → has_start_marker ls →
  line_at src n ln → (s ≤ n)%N →
  (∀ k lk, (s ≤ k)%N → (k < n)%N → line_at src k lk → ¬ has_stop_marker lk) →
  (∃ e le, (s ≤ e)%N ∧ line_at src e le ∧ has_stop_marker le) →
  bracketed src n.
Proof.
  intros Hs Hstart Hn Hsn Hnone (e0 & le0 & Hse0 & He0 & Hstop0).
  assert (Hne0 : (n ≤ e0)%N).
  { destruct (decide (n ≤ e0)%N) as [|Hlt]; [done|].
    destruct (Hnone e0 le0); [done|lia|done..]. }
  destruct Hn as (j & -> & Hj), He0 as (j0 & -> & Hj0).
  destruct (first_stop_index src (j0 - j) j) as (e & le & He & Hle & Hse & Hfirst).
  { exists le0. by replace (j + (j0 - j)) with j0 by lia. }
  exists s, (N.of_nat (S e)), ls, le.
  split_and!; [done|done|by exists e|done|done|lia|].
  intros k lk Hsk Hke Hk. destruct (decide (k < N.of_nat (S j))%N) as [Hlt|Hge].
  - by apply (Hnone k lk).
  - destruct Hk as (m & -> & Hm). apply (Hfirst m lk); [lia|done].
Qed.

(** X6.  On a source file whose markers are used as brackets, the set
    [find_excluded_lines] builds is the set the record format describes:
    the lines with a single-line marker and the lines from a start marker
    through the first stop marker below it. *)
Theorem bracketed_sources_agree fs path src excluded n :
  fs !! path = Some (File src) →
  find_excluded_lines fs path = inr excluded →
  well_bracketed src →
  n ∈ excluded ↔ spec_excluded src n.
Proof.
  intros Hp Hfind (Hboth & Hstray & Hclosed).
  rewrite (find_excluded_lines_file fs path src Hp) in Hfind.
  injection Hfind as <-. rewrite scan_set_marked.
  split; [|apply spec_excluded_marked].
  assert (Hnoboth : ∀ k lk, line_at src k lk → has_start_marker lk →
                            ¬ has_stop_marker lk).
  { intros k lk (i & _ & Hi) Hst Hsp. apply (Hboth lk); [|done].
    by eapply list_elem_of_lookup_2. }
  assert (Hopen : ∀ ln, line_at src n ln → open_region src n → bracketed src n).
  { intros ln Hn (s & ls & Hlt & Hs & Hstart & Hrun).
    apply (open_until_bracketed src s n ls ln); [done|done|done|lia| |].
    - intros k lk Hsk Hkn Hk Hstop.
      destruct (decide (k = s)) as [->|Hne].
      + destruct Hs as (i & -> & Hi), Hk as (i' & Heq & Hi').
        assert (i' = i) as -> by lia.
        rewrite Hi in Hi'. injection Hi' as <-.
        by apply (Hnoboth (N.of_nat (S i)) ls); [exists i|..].
      + apply (Hnoboth k lk); [done| |done].
        apply (Hrun k lk); [lia|done..].
    - by apply (Hclosed s ls). }
  intros (line & Hat & [Hl|[Hst|[Hsp|Hop]]]).
  - left. by exists line.
  - right. apply (open_until_bracketed src n n line line); [done..|lia| |].
    + intros k lk Hk1 Hk2. lia.
    + by apply (Hclosed n line).
  - right. apply (Hopen line Hat). by apply (Hstray n line).
  - right. by apply (Hopen line Hat).
Qed.

Lemma sample_source_well_bracketed : well_bracketed sample_source.
Proof.
  assert (Hlines : ∀ n line, line_at sample_source n line →
            (n = 1%N ∧ line = "int f() {" +:+ LF) ∨
            (n = 2%N ∧ line = "  // LCOV_EXCL_START" +:+ LF) ∨
            (n = 3%N ∧ line = "  abort();" +:+ LF) ∨
            (n = 4%N ∧ line = "  // LCOV_EXCL_STOP" +:+ LF) ∨
            (n = 5%N ∧ line = "  g(); // LCOV_EXCL_LINE" +:+ LF) ∨
            (n = 6%N ∧ line = "}" +:+ LF)).
  { intros n line (i & -> & Hi).
    destruct i as [|[|[|[|[|[|i]]]]]]; [..|done];
      injection Hi as <-; tauto. }
  split_and!.
  - intros line (i & Hi)%list_elem_of_lookup_1 [Hst Hsp].
    destruct (Hlines (N.of_nat (S i)) line) as [H|[H|[H|[H|[H|H]]]]];
      [by exists i|destruct H as [_ ->]..];
      first [by vm_compute in Hst | by vm_compute in Hsp].
  - intros n line Hat Hsp.
    destruct (Hlines n line Hat) as [H|[H|[H|[H|[H|H]]]]];
      destruct H as [-> ->]; try (by vm_compute in Hsp).
    exists 2%N, ("  // LCOV_EXCL_START" +:+ LF).
    split_and!; [lia|by exists 1|by vm_compute|].
    intros k lk Hk1 Hk2 Hk Hstop.
    destruct (Hlines k lk Hk) as [H|[H|[H|[H|[H|H]]]]];
      destruct H as [-> ->]; first [lia | by vm_compute in Hstop].
  - intros n line Hat Hst.
    destruct (Hlines n line Hat) as [H|[H|[H|[H|[H|H]]]]];
      destruct H as [-> ->]; try (by vm_compute in Hst).
    exists 4%N, ("  // LCOV_EXCL_STOP" +:+ LF).
    split_and!; [lia|by exists 3|by vm_compute].
Defined.

Lemma bracketed_sources_agree_witness :
  3%N ∈ fst (scan_lines 1 sample_source (∅, false)) ↔
  spec_excluded sample_source 3.
Proof.
  apply (bracketed_sources_agree sample_fs "a.c" sample_source).
  - reflexivity.
  - reflexivity.
  - exact sample_source_well_bracketed.
Defined.

(** *** Records in the standard format *)











(** *** The command line *)

(** X8.  Whatever its arguments, the script leaves every path but the one
    given as second argument as it was; it ends with status 0 exactly when
    it was given two arguments and [filter_lcov] did not raise, and when it
    ends with another status no file has changed. *)
Theorem script_writes_its_output_only argv fs :
  (∀ path, argv !! 2 ≠ Some path → (script argv fs).2 !! path = fs !! path) ∧
  ((script argv fs).1.1 = 0%Z ↔
     ∃ prog input_file output_file fs',
       argv = [prog; input_file; output_file] ∧
       filter_lcov fs input_file output_file = inr fs') ∧
  ((script argv fs).1.1 ≠ 0%Z → (script argv fs).2 = fs).
Proof.
  unfold script.
  destruct argv as [|prog [|input_file [|output_file [|extra argv]]]];
    try (split_and!; [done| |done]; split; [done|];
         by intros (? & ? & ? & ? & [=] & _)).
  destruct (filter_lcov fs input_file output_file) as [e|fs'] eqn:Hrun.
  - split_and!; [done| |done]. split; [done|].
    intros (? & ? & ? & ? & [= <- <- <-] & Hok). congruence.
  - split_and!; [| |done].
    + intros path Hpath. cbn [snd].
      unfold filter_lcov in Hrun.
      destruct (open_read fs input_file) as [|lines]; [done|].
      destruct (filter_lines fs lines initial) as [|st]; [done|].
      apply open_write_result in Hrun as ->.
      rewrite lookup_insert_ne; [done|]. intros ->. by apply Hpath.
    + split; [|done]. intros _. by exists prog, input_file, output_file, fs'.
Qed.

Lemma script_writes_its_output_only_witness :
  (script ["filter_lcov_exclusions.py"; "merged.lcov"; "filtered.lcov"]
     sample_fs).2 !! "a.c" = sample_fs !! "a.c" ∧
  (script ["filter_lcov_exclusions.py"; "merged.lcov"] sample_fs).2 = sample_fs.
Proof.
  split.
  - destruct (script_writes_its_output_only
                ["filter_lcov_exclusions.py"; "merged.lcov"; "filtered.lcov"]
                sample_fs) as (Hother & _ & _).
    apply Hother. vm_compute. discriminate.
  - destruct (script_writes_its_output_only
                ["filter_lcov_exclusions.py"; "merged.lcov"] sample_fs)
      as (_ & _ & Hfail).
    apply Hfail. vm_compute. discriminate.
Defined.

End FilterLcovMore.

(** ** More on [utils/run_with_timeout.py] *)

Module RunWithTimeoutMore.
Import Text RunWithTimeout RunWithTimeoutFacts.

(** *** What a return holds *)

(** Whatever is returned was read off the state the loop was left in. *)
Lemma returns_final_state w cmd timeout_sec fuel code out err :
  fst (stream_process w cmd timeout_sec fuel) = Returns code out err →
  let st := state_of (loop w timeout_sec fuel 0 (initial w)) in
  spawn_error w = None ∧ consistent w st ∧
  out = join (buf st Stdout) ∧ err = join (buf st Stderr).
Proof.
  unfold stream_process. destruct (spawn_error w) as [e|]; [done|].
  pose proof (loop_consistent w timeout_sec fuel 0 _ (consistent_initial w))
    as Hc.
  destruct (loop w timeout_sec fuel 0 (initial w)) as [k st|k e st|st];
    cbn [state_of fst] in *.
  - by intros [= <- <- <-].
  - destruct e; [|done..]. by intros [= <- <- <-].
  - done.
Qed.

(** X9.  Whatever [stream_process] returns, on either return path, each
    text is a prefix of what the child wrote on that stream, as translated;
    and it is the whole of it for each stream that had reached its end, the
    channel being unregistered when the loop was left. *)
Theorem returned_text_is_a_prefix w cmd timeout_sec fuel code out err :
  fst (stream_process w cmd timeout_sec fuel) = Returns code out err →
  let st := state_of (loop w timeout_sec fuel 0 (initial w)) in
  is_prefix out (universal_newlines (raw_output w Stdout)) ∧
  is_prefix err (universal_newlines (raw_output w Stderr)) ∧
  (Stdout ∉ registered st → out = universal_newlines (raw_output w Stdout)) ∧
  (Stderr ∉ registered st → err = universal_newlines (raw_output w Stderr)).
Proof.
  intros (_ & Hc & -> & ->)%returns_final_state.
  split_and!; [by apply consistent_prefix..| |].
  - intros Hgone. destruct (Hc Stdout) as [Heq Hempty].
    by rewrite (Hempty Hgone), append_nil_r in Heq.
  - intros Hgone. destruct (Hc Stderr) as [Heq Hempty].
    by rewrite (Hempty Hgone), append_nil_r in Heq.
Qed.

Lemma returned_text_is_a_prefix_witness :
  is_prefix (line "hello") (universal_newlines (raw_output echo_hello Stdout)).
Proof.
  destruct (returned_text_is_a_prefix echo_hello ["echo"; "hello"] (Some 5%Q) 3
              (Some 0%Z) (line "hello") EmptyString) as (Hout & _).
  - by vm_compute.
  - exact Hout.
Defined.

(** *** Carriage returns *)


Lemma universal_newlines_no_cr s : occurs CR (universal_newlines s) = false.
Proof.
  induction s as [|a s IH]; [done|]. cbn [universal_newlines].
  destruct (Ascii.eqb a CR) eqn:Ha.
  - destruct s as [|b s]; [done|].
    destruct (Ascii.eqb b LF); [done|]. cbn [occurs]. by rewrite IH.
  - cbn [occurs]. by rewrite Ha, IH.
Qed.

Lemma occurs_append c s1 s2 :
  occurs c (s1 +:+ s2) = occurs c s1 || occurs c s2.
Proof.
  induction s1 as [|a s1 IH]; [done|].
  rewrite append_cons. cbn [occurs]. by rewrite IH, orb_assoc.
Qed.

Lemma occurs_prefix c p s : is_prefix p s → occurs c s = false → occurs c p = false.
Proof.
  intros [rest ->]. rewrite occurs_append. by intros [? _]%orb_false_iff.
Qed.

(** X10.  No text [stream_process] returns holds a carriage return. *)
Theorem returned_text_has_no_carriage_return w cmd timeout_sec fuel code out err :
  fst (stream_process w cmd timeout_sec fuel) = Returns code out err →
  occurs CR out = false ∧ occurs CR err = false.
Proof.
  intros (_ & Hc & -> & ->)%returns_final_state.
  split; eapply occurs_prefix;
    (by apply consistent_prefix) || apply universal_newlines_no_cr.
Qed.

Lemma returned_text_has_no_carriage_return_witness :
  occurs CR (line "hello") = false ∧ occurs CR EmptyString = false.
Proof.
  apply (returned_text_has_no_carriage_return echo_hello_crlf
           ["echo"; "hello"] (Some 5%Q) 3 (Some 0%Z)).
  by vm_compute.
Defined.



(** *** Invariants of the drain loop, in general *)

(** What every event keeps, and the poll keeps, the loop keeps. *)
Lemma loop_invariant w timeout_sec (I : state → Prop) :
  (∀ k c st, I st →
     match on_event w k c st with Next st' | Throw _ st' => I st' end) →
  (∀ code st, I st → I (set_exit_code code st)) →
  ∀ fuel k st, I st → I (state_of (loop w timeout_sec fuel k st)).
Proof.
  intros Hev Hset.
  assert (Hdrain : ∀ k events st, I st →
            match drain w k events st with Next st' | Throw _ st' => I st' end).
  { intros k events. induction events as [|c events IH]; intros st HI; [done|].
    cbn [drain]. pose proof (Hev k c st HI) as Hstep.
    destruct (on_event w k c st) as [st'|e st']; [by apply IH|done]. }
  induction fuel as [|fuel IH]; intros k st HI; [done|].
  cbn [loop]. unfold pass.
  destruct (deadline_passed timeout_sec (clock w k)); [done|].
  pose proof (Hdrain k (select w k st) st HI) as Hd.
  destruct (drain w k (select w k st) st) as [st'|e st']; [|done].
  pose proof (Hset (poll w k) st' Hd) as Hp.
  cbn [set_exit_code exit_code].
  destruct (poll w k), (select w k st); try done; by apply IH.
Qed.

(** What an event does to the buffers: nothing, or one chunk more on its
    own channel, a non-empty one taken off the text to come. *)
Lemma on_event_buf w k c st :
  match on_event w k c st with
  | Next st' | Throw _ st' =>
      (∀ c', buf st' c' = buf st c' ∧ sink st' c' = sink st c') ∨
      ∃ chunk,
        chunk = fst (readline (pending st c)) ∧ chunk ≠ EmptyString ∧
        buf st' c = buf st c ++ [chunk] ∧
        (sink st' c = sink st c ++ [chunk] ∨ sink st' c = sink st c) ∧
        (sink_ok w k c = true → sink st' c = sink st c ++ [chunk]) ∧
        ∀ c', c' ≠ c → buf st' c' = buf st c' ∧ sink st' c' = sink st c'
  end.
Proof.
  unfold on_event. destruct (read_error w k c); [by left|].
  destruct (readline (pending st c)) as [[|a chunk] rest]; [by left|].
  right. exists (String a chunk). cbn [buf sink fst]. unfold upd.
  rewrite decide_True by done.
  split_and!; [done|done|done| | |].
  - destruct (sink_ok w k c); [left|right]; [by rewrite decide_True|done].
  - intros ->. by rewrite decide_True.
  - intros c' Hne. rewrite decide_False by done.
    destruct (sink_ok w k c); [by rewrite decide_False|done].
Qed.

(** *** The mirror *)

Lemma loop_mirror_sublist w timeout_sec fuel :
  let st := state_of (loop w timeout_sec fuel 0 (initial w)) in
  ∀ c, sink st c `sublist_of` buf st c.
Proof.
  apply (loop_invariant w timeout_sec (λ st, ∀ c, sink st c `sublist_of` buf st c)).
  - intros k c st HI. pose proof (on_event_buf w k c st) as Hev.
    destruct (on_event w k c st) as [st'|e st'];
      (destruct Hev as [Hsame|(chunk & _ & _ & Hbuf & Hsink & _ & Hother)];
       [intros c'; destruct (Hsame c') as [-> ->]; apply HI|];
       intros c'; destruct (decide (c' = c)) as [->|Hne];
       [rewrite Hbuf; destruct Hsink as [-> | ->];
        [by apply sublist_app|by apply sublist_inserts_r]
       |destruct (Hother c' Hne) as [-> ->]; apply HI]).
  - intros code st HI. exact HI.
  - intros c. constructor.
Qed.

Lemma loop_mirror_equal w timeout_sec fuel :
  (∀ k c, sink_ok w k c = true) →
  let st := state_of (loop w timeout_sec fuel 0 (initial w)) in
  ∀ c, sink st c = buf st c.
Proof.
  intros Hok.
  apply (loop_invariant w timeout_sec (λ st, ∀ c, sink st c = buf st c)).
  - intros k c st HI. pose proof (on_event_buf w k c st) as Hev.
    destruct (on_event w k c st) as [st'|e st'];
      (destruct Hev as [Hsame|(chunk & _ & _ & Hbuf & _ & Hsink & Hother)];
       [intros c'; destruct (Hsame c') as [-> ->]; apply HI|];
       intros c'; destruct (decide (c' = c)) as [->|Hne];
       [by rewrite Hbuf, (Hsink (Hok k c)), HI
       |destruct (Hother c' Hne) as [-> ->]; apply HI]).
  - intros code st HI. exact HI.
  - done.
Qed.

Lemma stream_process_sinks w cmd timeout_sec fuel :
  spawn_error w = None →
  let st := state_of (loop w timeout_sec fuel 0 (initial w)) in
  stdout_sink (snd (stream_process w cmd timeout_sec fuel)) = sink st Stdout ∧
  stderr_sink (snd (stream_process w cmd timeout_sec fuel)) = sink st Stderr.
Proof.
  intros Hspawn. unfold stream_process. rewrite Hspawn.
  destruct (loop w timeout_sec fuel 0 (initial w)) as [k st|k [] st|st]; done.
Qed.

(** X12.  What reaches the two sinks is made of captured chunks only, in
    the order of their capture; when every write goes through, the text
    mirrored on each sink is the text returned for that stream. *)
Theorem mirror_shows_what_is_captured w cmd timeout_sec fuel :
  spawn_error w = None →
  let st := state_of (loop w timeout_sec fuel 0 (initial w)) in
  let sys := snd (stream_process w cmd timeout_sec fuel) in
  stdout_sink sys `sublist_of` buf st Stdout ∧
  stderr_sink sys `sublist_of` buf st Stderr ∧
  ((∀ k c, sink_ok w k c = true) →
   ∀ code out err,
     fst (stream_process w cmd timeout_sec fuel) = Returns code out err →
     join (stdout_sink sys) = out ∧ join (stderr_sink sys) = err).
Proof.
  intros Hspawn.
  destruct (stream_process_sinks w cmd timeout_sec fuel Hspawn) as [Ho He].
  cbv zeta. rewrite Ho, He. split_and!.
  - apply loop_mirror_sublist.
  - apply loop_mirror_sublist.
  - intros Hok code out err (_ & _ & -> & ->)%returns_final_state.
    by rewrite !(loop_mirror_equal w timeout_sec fuel Hok).
Qed.

Lemma mirror_shows_what_is_captured_witness :
  join (stdout_sink (snd (stream_process echo_hello ["echo"; "hello"]
                            (Some 5%Q) 3))) = line "hello".
Proof.
  destruct (mirror_shows_what_is_captured echo_hello ["echo"; "hello"]
              (Some 5%Q) 3 eq_refl) as (_ & _ & Hsame).
  destruct (Hsame (λ _ _, eq_refl) (Some 0%Z) (line "hello") EmptyString)
    as [Hout _].
  - by vm_compute.
  - exact Hout.
Defined.

(** *** Chunks and passes *)

Lemma readline_one_line s :
  fst (readline s) = EmptyString ∨ one_line (fst (readline s)) = true.
Proof.
  induction s as [|a s IH]; [by left|]. right. cbn [readline].
  destruct (Ascii.eqb a LF) eqn:Ha; [done|].
  destruct (readline s) as [l r]. cbn [fst] in *. cbn [one_line].
  destruct l as [|b l]; [done|]. rewrite Ha.
  destruct IH as [Hl|Hl]; [discriminate Hl|exact Hl].
Qed.

(** X13.  Every chunk in the two buffers is one line: it is not empty, and
    it holds no line feed except, possibly, as its last character. *)
Theorem buffered_chunks_are_lines w timeout_sec fuel c chunk :
  chunk ∈ buf (state_of (loop w timeout_sec fuel 0 (initial w))) c →
  one_line chunk = true.
Proof.
  revert c chunk.
  apply (loop_invariant w timeout_sec
           (λ st, ∀ c chunk, chunk ∈ buf st c → one_line chunk = true)).
  - intros k c st HI. pose proof (on_event_buf w k c st) as Hev.
    destruct (on_event w k c st) as [st'|e st'];
      (destruct Hev as [Hsame|(chunk & Hchunk & Hne & Hbuf & _ & _ & Hother)];
       [intros c' ch; destruct (Hsame c') as [-> _]; apply HI|];
       intros c' ch; destruct (decide (c' = c)) as [->|Hne'];
       [rewrite Hbuf; intros [Hin|Hin%list_elem_of_singleton]%elem_of_app;
        [by apply (HI c)|];
        subst ch; destruct (readline_one_line (pending st c)); congruence
       |destruct (Hother c' Hne') as [-> _]; apply HI]).
  - intros code st HI. exact HI.
  - intros c chunk Hin. by apply elem_of_nil in Hin.
Qed.

Lemma buffered_chunks_are_lines_witness : one_line (line "a") = true.
Proof.
  apply (buffered_chunks_are_lines two_lines (Some (1 # 20)%Q) 2 Stdout).
  vm_compute. by left.
Defined.

(** X14.  The buffers only grow at their end: what had been captured after
    [n] passes is still there, in place, whenever the loop is looked at
    later. *)
Theorem buffers_are_append_only w timeout_sec n st fuel c :
  loop w timeout_sec n 0 (initial w) = Unfinished st →
  n ≤ fuel →
  buf st c `prefix_of` buf (state_of (loop w timeout_sec fuel 0 (initial w))) c.
Proof.
  intros Hrun Hle. replace fuel with (n + (fuel - n)) by lia.
  rewrite loop_split, Hrun.
  apply (loop_invariant w timeout_sec (λ st', buf st c `prefix_of` buf st' c));
    [| |done].
  - intros k c0 st0 HI. pose proof (on_event_buf w k c0 st0) as Hev.
    destruct (on_event w k c0 st0) as [st'|e st'];
      (destruct Hev as [Hsame|(chunk & _ & _ & Hbuf & _ & _ & Hother)];
       [by destruct (Hsame c) as [-> _]|];
       destruct (decide (c = c0)) as [->|Hne];
       [rewrite Hbuf; by apply prefix_app_r
       |by destruct (Hother c Hne) as [-> _]]).
  - intros code st0 HI. exact HI.
Qed.

Lemma buffers_are_append_only_witness :
  [line "a"] `prefix_of`
    buf (state_of (loop (with_clock (λ _, 0%Q) two_lines) (Some 5%Q) 3 0
                     (initial (with_clock (λ _, 0%Q) two_lines)))) Stdout.
Proof.
  assert (Hrun : ∃ st, loop (with_clock (λ _, 0%Q) two_lines) (Some 5%Q) 1 0
                         (initial (with_clock (λ _, 0%Q) two_lines))
                       = Unfinished st ∧ buf st Stdout = [line "a"]).
  { eexists. split; [reflexivity|]. by vm_compute. }
  destruct Hrun as (st & Hrun & Hbuf). rewrite <- Hbuf.
  apply (buffers_are_append_only _ (Some 5%Q) 1 st 3 Stdout Hrun). lia.
Defined.

Lemma select_NoDup w k st : NoDup (select w k st).
Proof. unfold select. apply NoDup_filter, NoDup_remove_dups. Qed.

Lemma drain_length w k c events :
  NoDup events →
  ∀ st,
    match drain w k events st with
    | Next st' | Throw _ st' =>
        length (buf st' c)
        ≤ length (buf st c) + (if decide (c ∈ events) then 1 else 0)
    end.
Proof.
  induction events as [|c0 events IH]; intros Hnd st.
  - cbn [drain]. lia.
  - apply NoDup_cons in Hnd as [Hfresh Hnd]. cbn [drain].
    pose proof (on_event_buf w k c0 st) as Hev.
    assert (Hone : ∀ st', 
              ((∀ c', buf st' c' = buf st c' ∧ sink st' c' = sink st c') ∨
               ∃ chunk,
                 chunk = fst (readline (pending st c0)) ∧ chunk ≠ EmptyString ∧
                 buf st' c0 = buf st c0 ++ [chunk] ∧
                 (sink st' c0 = sink st c0 ++ [chunk] ∨ sink st' c0 = sink st c0) ∧
                 (sink_ok w k c0 = true → sink st' c0 = sink st c0 ++ [chunk]) ∧
                 ∀ c', c' ≠ c0 → buf st' c' = buf st c' ∧ sink st' c' = sink st c') →
              length (buf st' c)
              ≤ length (buf st c) + (if decide (c = c0) then 1 else 0)).
    { intros st' [Hsame|(chunk & _ & _ & Hbuf & _ & _ & Hother)].
      - destruct (Hsame c) as [-> _]. lia.
      - destruct (decide (c = c0)) as [->|Hne].
        + rewrite Hbuf, length_app. simpl. lia.
        + destruct (Hother c Hne) as [-> _]. lia. }
    destruct (on_event w k c0 st) as [st1|e st1].
    + specialize (IH Hnd st1). specialize (Hone st1 Hev).
      destruct (drain w k events st1) as [st'|e st'];
        (destruct (decide (c = c0)) as [->|Hne];
         [rewrite decide_False in IH by done;
          rewrite decide_True by (by left); lia
         |destruct (decide (c ∈ events));
          [rewrite decide_True by (by right)
          |rewrite decide_False by (by intros [?|?]%elem_of_cons)]; lia]).
    + specialize (Hone st1 Hev).
      destruct (decide (c = c0)) as [->|Hne];
        [rewrite decide_True by (by left); lia|].
      destruct (decide (c ∈ c0 :: events)); lia.
Qed.

(** X15.  Each pass takes at most one line off each stream: after [n]
    passes no buffer holds more than [n] chunks. *)
Theorem one_line_per_stream_per_pass w timeout_sec n st c :
  loop w timeout_sec n 0 (initial w) = Unfinished st →
  length (buf st c) ≤ n.
Proof.
  assert (Hgen : ∀ fuel k st0 st',
            loop w timeout_sec fuel k st0 = Unfinished st' →
            length (buf st' c) ≤ length (buf st0 c) + fuel).
  { induction fuel as [|fuel IH]; intros k st0 st'.
    - intros [= <-]. lia.
    - cbn [loop]. unfold pass.
      destruct (deadline_passed timeout_sec (clock w k)); [done|].
      pose proof (drain_length w k c (select w k st0)
                    (select_NoDup w k st0) st0) as Hd.
      destruct (drain w k (select w k st0) st0) as [st1|e st1]; [|done].
      cbn [set_exit_code exit_code].
      assert (Hstep : length (buf st1 c) ≤ length (buf st0 c) + 1)
        by (destruct (decide (c ∈ select w k st0)); lia).
      destruct (poll w k), (select w k st0); try done;
        intros Hrest%IH; cbn [set_exit_code buf] in Hrest; lia. }
  intros Hrun%Hgen. cbn [initial buf length] in Hrun. lia.
Qed.

Lemma one_line_per_stream_per_pass_witness :
  ∃ st, loop two_lines (Some 5%Q) 1 0 (initial two_lines) = Unfinished st ∧
        length (buf st Stdout) ≤ 1.
Proof.
  assert (Hrun : ∃ st, loop two_lines (Some 5%Q) 1 0 (initial two_lines)
                       = Unfinished st)
    by (eexists; reflexivity).
  destruct Hrun as [st Hrun]. exists st. split; [exact Hrun|].
  exact (one_line_per_stream_per_pass two_lines (Some 5%Q) 1 st Stdout Hrun).
Defined.

(** *** What the code 124 means *)

Lemma drain_throw w k events :
  ∀ st e st', drain w k events st = Throw e st' →
              ∃ c, read_error w k c = Some e.
Proof.
  induction events as [|c events IH]; intros st e st'; [done|].
  cbn [drain]. destruct (on_event w k c st) as [st1|e1 st1] eqn:Hev.
  - apply IH.
  - intros [= <- <-]. exists c. unfold on_event in Hev.
    destruct (read_error w k c) as [e0|]; [by injection Hev as ->|].
    by destruct (readline (pending st c)) as [[|a chunk] rest].
Qed.

(** A pass left by an exception: the deadline check fired, or a read raised. *)
Lemma pass_raise w timeout_sec k st e st' :
  pass w timeout_sec k st = Raise e st' →
  (e = TimeoutError ∧ deadline_passed timeout_sec (clock w k) = true) ∨
  (deadline_passed timeout_sec (clock w k) = false ∧
   ∃ c, read_error w k c = Some e).
Proof.
  unfold pass. destruct (deadline_passed timeout_sec (clock w k)).
  - intros [= <- _]. by left.
  - destruct (drain w k (select w k st) st) as [st1|e1 st1] eqn:Hd.
    + cbn [set_exit_code exit_code]. by destruct (poll w k), (select w k st).
    + intros [= <- _]. right. split; [done|]. by eapply drain_throw.
Qed.

Lemma loop_raised w timeout_sec fuel :
  ∀ k0 st0 k e st,
    loop w timeout_sec fuel k0 st0 = Raised k e st →
    ∃ n st_k, k = n + k0 ∧ n < fuel ∧
              loop w timeout_sec n k0 st0 = Unfinished st_k ∧
              pass w timeout_sec k st_k = Raise e st.
Proof.
  induction fuel as [|fuel IH]; intros k0 st0 k e st; [done|]. cbn [loop].
  destruct (pass w timeout_sec k0 st0) as [st'|st'|e' st'] eqn:Hpass; [|done|].
  - intros (n & st_k & -> & Hn & Hloop & Hraise)%IH.
    exists (S n), st_k. split_and!; [lia|lia| |].
    + cbn [loop]. by rewrite Hpass.
    + by replace (S n + k0) with (n + S k0) by lia.
  - intros [= <- <- <-]. exists 0, st0. split_and!; [done|lia|done..].
Qed.

(** While the loop goes on, no deadline check has fired. *)
Lemma loop_unfinished_checks w timeout_sec n :
  ∀ k0 st0 st,
    loop w timeout_sec n k0 st0 = Unfinished st →
    ∀ j, k0 ≤ j < k0 + n → deadline_passed timeout_sec (clock w j) = false.
Proof.
  induction n as [|n IH]; intros k0 st0 st Hrun j Hj; [lia|].
  cbn [loop] in Hrun.
  destruct (pass w timeout_sec k0 st0) as [st'|st'|e' st'] eqn:Hpass;
    [|done..].
  destruct (decide (j = k0)) as [->|Hne].
  - unfold pass in Hpass.
    by destruct (deadline_passed timeout_sec (clock w k0)).
  - apply (IH (S k0) st' st Hrun). lia.
Qed.

(** X16.  When no read raises a [TimeoutError] of its own, a returned code
    of 124 has one of two causes: a deadline is set and a check found the
    elapsed time beyond it, no earlier check having done so; or the child
    itself exited with 124. *)
Theorem code_124_means_deadline_or_child w cmd timeout_sec fuel out err :
  reads_never_time_out w →
  fst (stream_process w cmd timeout_sec fuel) = Returns (Some 124%Z) out err →
  (∃ t k, timeout_sec = Some t ∧ (t < clock w k)%Q ∧
          ∀ j, j < k → (clock w j <= t)%Q) ∨
  (∃ k, poll w k = Some 124%Z).
Proof.
  intros Hquiet. unfold stream_process.
  destruct (spawn_error w) as [e|]; [done|].
  destruct (loop w timeout_sec fuel 0 (initial w)) as [k st|k e st|st] eqn:Hrun;
    [| |done].
  - intros [= Hcode _ _]. right. exists k.
    destruct (exited_pass w timeout_sec fuel k st Hrun)
      as (_ & code & _ & _ & _ & Hpoll & Hcode').
    congruence.
  - destruct e; [|done..]. intros _. left.
    destruct (loop_raised w timeout_sec fuel 0 (initial w) k _ st Hrun)
      as (n & st_k & -> & _ & Hbefore & Hraise).
    rewrite Nat.add_0_r in *.
    destruct (pass_raise w timeout_sec n st_k _ st Hraise)
      as [[_ Hfired]|[_ [c Hc]]]; [|by destruct (Hquiet n c)].
    destruct timeout_sec as [t|]; [|done].
    exists t, n. split_and!; [done|by apply deadline_passed_lt|].
    intros j Hj.
    pose proof (loop_unfinished_checks w (Some t) n 0 _ st_k Hbefore j
                  ltac:(lia)) as Hnot.
    cbn [deadline_passed] in Hnot. apply negb_false_iff in Hnot.
    by apply Qle_bool_iff.
Qed.

Lemma code_124_means_deadline_or_child_witness :
  (∃ t k, Some 0%Q = Some t ∧ (t < clock forked k)%Q ∧
          ∀ j, j < k → (clock forked j <= t)%Q) ∨
  (∃ k, poll forked k = Some 124%Z).
Proof.
  apply (code_124_means_deadline_or_child forked ["sleep"; "10"] (Some 0%Q) 1
           EmptyString EmptyString).
  - intros k c. vm_compute. discriminate.
  - by vm_compute.
Defined.

(** X17.  Without a deadline, and no read raising a [TimeoutError] of its
    own, nothing is ever killed: the process table is left as it was, and a
    return carries the exit code a poll reported. *)
Theorem no_deadline_no_kill w cmd fuel :
  reads_never_time_out w →
  spawn_error w = None →
  procs (snd (stream_process w cmd None fuel)) = processes w ∧
  ∀ code out err,
    fst (stream_process w cmd None fuel) = Returns code out err →
    ∃ k c, code = Some c ∧ poll w k = Some c.
Proof.
  intros Hquiet Hspawn. unfold stream_process. rewrite Hspawn.
  destruct (loop w None fuel 0 (initial w)) as [k st|k e st|st] eqn:Hrun.
  - split; [done|]. intros code out err [= <- _ _].
    destruct (exited_pass w None fuel k st Hrun)
      as (_ & c & _ & _ & _ & Hpoll & Hcode).
    by exists k, c.
  - assert (He : e ≠ TimeoutError).
    { intros ->.
      destruct (loop_raised w None fuel 0 (initial w) k _ st Hrun)
        as (n & st_k & -> & _ & _ & Hraise).
      destruct (pass_raise w None (n + 0) st_k _ st Hraise)
        as [[_ Hfired]|[_ [c Hc]]]; [done|by destruct (Hquiet (n + 0) c)]. }
    by destruct e.
  - done.
Qed.

Lemma no_deadline_no_kill_witness :
  procs (snd (stream_process forked ["sleep"; "10"] None 4)) = processes forked.
Proof.
  destruct (no_deadline_no_kill forked ["sleep"; "10"] 4) as [Hprocs _].
  - intros k c. vm_compute. discriminate.
  - reflexivity.
  - exact Hprocs.
Defined.

Lemma print_report_procs sys report :
  procs (fold_left (λ s text, print_err text s) report sys) = procs sys.
Proof.
  revert sys. induction report as [|text report IH]; intros sys; [done|].
  cbn [fold_left]. by rewrite IH.
Qed.

(** X18.  A child that exits by itself with code 124 is reported by [main]
    just as a timeout is: [main] returns 124 and prints the timeout report
    on the error sink, although no deadline fired and nothing was killed. *)
Theorem child_exit_124_is_reported_as_timeout w a fuel k st :
  cmd a ≠ [] →
  spawn_error w = None →
  loop w (Some (inject_Z (timeout a))) fuel 0 (initial w) = Exited k st →
  poll w k = Some 124%Z →
  fst (main w a fuel) = Exit 124 ∧
  stderr_sink (snd (main w a fuel))
  = sink st Stderr ++
    map line (timeout_report (cmd a) (join (buf st Stdout))
                             (join (buf st Stderr))) ∧
  procs (snd (main w a fuel)) = processes w.
Proof.
  intros Hcmd Hspawn Hrun Hpoll.
  destruct (exited_pass w _ fuel k st Hrun)
    as (_ & code & _ & _ & _ & Hpoll' & Hcode).
  assert (code = 124%Z) as -> by congruence.
  unfold main. destruct (cmd a) as [|arg rest]; [done|].
  unfold stream_process. rewrite Hspawn, Hrun, Hcode. cbv beta iota.
  destruct (decide (Some 124%Z = Some 0%Z)) as [[=]|_].
  destruct (decide (Some 124%Z = Some 124%Z)) as [_|[]]; [|done].
  cbn [fst snd]. split_and!; [done| |].
  - by rewrite print_report.
  - by rewrite print_report_procs.
Qed.

Lemma child_exit_124_is_reported_as_timeout_witness :
  fst (main (with_poll (λ _, Some 124%Z) echo_hello)
         {| timeout := 5; cmd := ["sh"; "-c"; "exit 124"] |} 3) = Exit 124 ∧
  procs (snd (main (with_poll (λ _, Some 124%Z) echo_hello)
                {| timeout := 5; cmd := ["sh"; "-c"; "exit 124"] |} 3))
  = processes echo_hello.
Proof.
  assert (Hrun : ∃ st, loop (with_poll (λ _, Some 124%Z) echo_hello)
                         (Some (inject_Z 5)) 3 0
                         (initial (with_poll (λ _, Some 124%Z) echo_hello))
                       = Exited 2 st)
    by (eexists; reflexivity).
  destruct Hrun as [st Hrun].
  destruct (child_exit_124_is_reported_as_timeout
              (with_poll (λ _, Some 124%Z) echo_hello)
              {| timeout := 5; cmd := ["sh"; "-c"; "exit 124"] |} 3 2 st)
    as (Hcode & _ & Hprocs); [done|reflexivity|exact Hrun|reflexivity|].
  split; [exact Hcode|exact Hprocs].
Defined.

End RunWithTimeoutMore.
